(** * CircleCI source of trufflehog: a shallow embedding and its properties

    The development follows [pkg/sources/circleci/circleci.go]: the byte
    helpers it borrows from Go's [bytes] package, the sanitizer
    [removeCircleSha1Line], the error aggregator [scanErrors], the four
    HTTP accessors, the chunk emitter [chunkAction], the per-project
    goroutine body and the bounded pool that [Chunks] drives. *)

From Stdlib Require Import ZArith Strings.Byte DecimalString.
From stdpp Require Import base list strings gmap.

Open Scope Z_scope.

#[global] Instance byte_eq_decision : EqDecision byte := Byte.byte_eq_dec.

(** ** Go's [bytes] package, as far as the source uses it

    A [[]byte] is a [list byte].  Only [Split], [Contains] and [Join] are
    called by the source; [Index] and [HasPrefix] are what the first two
    are built on. *)

Module bytes.

(** [bytes.HasPrefix(s, prefix)]. *)
Fixpoint HasPrefix (s prefix : list byte) {struct prefix} : bool :=
  match prefix, s with
  | [], _ => true
  | _ :: _, [] => false
  | p :: prefix', b :: s' => if decide (b = p) then HasPrefix s' prefix' else false
  end.

(** [bytes.Index(s, sep)]: the index of the first instance of [sep] in
    [s], or [-1] when there is none. *)
Fixpoint Index (s sep : list byte) : Z :=
  if HasPrefix s sep then 0
  else match s with
       | [] => -1
       | _ :: s' => let m := Index s' sep in if m <? 0 then -1 else m + 1
       end.

(** [bytes.Contains(b, subslice)] is [Index(b, subslice) != -1]. *)
Definition Contains (b subslice : list byte) : bool :=
  negb (Index b subslice =? -1).

(** The loop of [genSplit]: cut at the next separator until [Index]
    finds none.  Every round consumes at least [len(sep)] bytes, so for
    a non-empty separator [length s] rounds are never exhausted. *)
Fixpoint genSplit (n : nat) (s sep : list byte) : list (list byte) :=
  match n with
  | O => [s]
  | S n' =>
      let m := Index s sep in
      if m <? 0 then [s]
      else take (Z.to_nat m) s
             :: genSplit n' (drop (Z.to_nat m + length sep)%nat s) sep
  end.

(** [bytes.Split(s, sep)] for a non-empty [sep] (the source passes the
    one-byte newline separator; the empty-separator branch of Go, which
    explodes [s] into UTF-8 sequences, is not reached). *)
Definition Split (s sep : list byte) : list (list byte) :=
  genSplit (length s) s sep.

(** [bytes.Join(s, sep)]. *)
Fixpoint Join (s : list (list byte)) (sep : list byte) : list byte :=
  match s with
  | [] => []
  | [a] => a
  | a :: rest => a ++ sep ++ Join rest sep
  end.

End bytes.

(** ** The sanitizer *)

(** The newline byte, Go's ["\n"]. *)
Definition newline : byte := x0a.

(** The marker token, Go's [[]byte("CIRCLE_SHA1=")]. *)
Definition circleSha1 : list byte := String.list_byte_of_string "CIRCLE_SHA1=".

(** [removeCircleSha1Line]: the [for ... range lines] loop appends the
    lines that pass the test to [result], one at a time. *)
Definition removeCircleSha1Line (input : list byte) : list byte :=
  let lines := bytes.Split input [newline] in
  let result :=
    fold_left
      (fun result line =>
         if negb (bytes.Contains line circleSha1) then result ++ [line] else result)
      lines [] in
  bytes.Join result [newline].

(** ** Go values the source handles *)

(** A non-nil Go [error]: a plain message ([errors.New], [fmt.Errorf]
    without [%w], and whatever the libraries report), or a message that
    wraps another error ([fmt.Errorf] with [%w], go-errors' [WrapPrefix]).
    A value of Go type [error] is an [option error], [None] being [nil]. *)
Inductive error : Type :=
| errorString (msg : string)
| wrapError (msg : string) (err : error).

(** The [Error()] method. *)
Definition Error (e : error) : string :=
  match e with
  | errorString msg => msg
  | wrapError msg _ => msg
  end.

(** A Go result pair [(T, error)]: the value, or the non-nil error. *)
Inductive result (A : Type) : Type :=
| Ok (a : A)
| Err (err : error).
Arguments Ok {A} a.
Arguments Err {A} err.

Module fmt.

(** The verb [%d] on an [int]. *)
Definition d (n : Z) : string := NilZero.string_of_int (Z.to_int n).

(** [fmt.Errorf(prefix + "%w", err)]: the message is the prefix followed
    by the wrapped error's message. *)
Definition Errorf_w (prefix : string) (err : error) : error :=
  wrapError (prefix +:+ Error err) err.

End fmt.

Module errors.

(** go-errors' [errors.WrapPrefix(err, prefix, 0)]. *)
Definition WrapPrefix (err : error) (prefix : string) : error :=
  wrapError (prefix +:+ ": " +:+ Error err) err.

End errors.

(** ** The data model *)

Record project := { VCS : string; Username : string; RepoName : string }.

Record build := { BuildNum : Z }.

Record action := { Index : Z; OutputURL : string }.

Record buildStep := { Name : string; Actions : list action }.

Module sourcespb.

(** Modelled from the spec: the source-type tag of a chunk.  The
    enumeration is declared in [pkg/pb/sourcespb]; this source uses the
    one tag below. *)
Inductive SourceType : Type := SourceType_SOURCE_TYPE_CIRCLECI.

(** Modelled from the spec: the alternatives of the connection's
    credential, declared in [pkg/pb/sourcespb].  [CircleCI_Token] is the
    bearer token the type switch of [Init] recognises; any other
    alternative is told apart by a tag. *)
Inductive isCircleCI_Credential : Type :=
| CircleCI_Token (Token : string)
| CircleCI_Unrecognized (tag : nat).

(** Modelled from the spec: the connection message; a [nil] credential
    is [None]. *)
Record CircleCI := { Credential : option isCircleCI_Credential }.

(** Modelled from the spec: the generated getter [GetToken], the bearer
    token of a token credential and the empty string otherwise. *)
Definition GetToken (x : CircleCI) : string :=
  match Credential x with
  | Some (CircleCI_Token t) => t
  | _ => ""
  end.

End sourcespb.

Module source_metadatapb.

(** Modelled from the spec: the provenance record of a chunk (provider,
    account, repository, build number, step name, link), declared in
    [pkg/pb/source_metadatapb]; the fields are those of the literal in
    [chunkAction]. *)
Record CircleCI := {
  VcsType : string;
  Username : string;
  Repository : string;
  BuildNumber : Z;
  BuildStep : string;
  Link : string
}.

(** Modelled from the spec: the metadata of a chunk, a tagged union of
    which this source builds the CircleCI alternative. *)
Inductive MetaData : Type := MetaData_Circleci (Circleci : CircleCI).

End source_metadatapb.

Module sources.

(** Modelled from the spec: the emitted unit, declared in [pkg/sources];
    the fields are those of the literal in [chunkAction]. *)
Record Chunk := {
  SourceType : sourcespb.SourceType;
  SourceName : string;
  SourceID : Z;
  Data : list byte;
  SourceMetadata : source_metadatapb.MetaData;
  Verify : bool
}.

End sources.

(** ** Go's [net/http], as far as the source uses it *)

Module http.

(** A request: method, URL and header ([map[string][]string]). *)
Record Request := {
  Method : string;
  URL : string;
  Header : gmap string (list string)
}.

(** A response: the status code, and what reading the body to its end
    gives, its bytes or the read error. *)
Record Response := { StatusCode : Z; Body : result (list byte) }.

(** The [Do] method of [http.Client]: the remote's answer to a request, or the
    transport error.  The remote answers a given request the same way
    throughout one run. *)
Definition Client : Type := Request → result Response.

(** [req.Header.Set(key, value)]: the key's values become the one value.
    (The two keys the source sets are already in canonical form.) *)
Definition Header_Set (req : Request) (key value : string) : Request :=
  {| Method := Method req; URL := URL req;
     Header := <[key := [value]]> (Header req) |}.

End http.

Module anypb.

(** [anypb.Any]: a type URL and the encoded message. *)
Record Any := { TypeUrl : string; Value : list byte }.

End anypb.

(** What the source calls and the repository's file does not define: URL
    parsing inside [http.NewRequest], the JSON decoders at the three
    types the source decodes into, protobuf unmarshalling, and the
    retrying HTTP client of [pkg/common]. *)
Record Runtime := {
  url_Parse : string → option error;
  json_Decode_projects : list byte → result (list project);
  json_Decode_builds : list byte → result (list build);
  json_Decode_buildRes : list byte → result (list buildStep);
  anypb_UnmarshalTo : anypb.Any → result sourcespb.CircleCI;
  common_RetryableHttpClientTimeout : Z → http.Client
}.

(** [http.NewRequest(method, url, nil)]: fails when the URL does not
    parse; the header starts empty. *)
Definition http_NewRequest (rt : Runtime) (method url : string) : result http.Request :=
  match url_Parse rt url with
  | Some err => Err err
  | None => Ok {| http.Method := method; http.URL := url; http.Header := ∅ |}
  end.

(** ** The worker pool of [golang.org/x/sync/errgroup] *)

Module errgroup.

(** A group: its semaphore, [None] when there is no limit ([sem == nil]),
    [Some n] for a token channel of capacity [n]. *)
Record Group := { sem : option Z }.

(** The zero value [errgroup.Group{}]. *)
Definition zero : Group := {| sem := None |}.

(** [g.SetLimit(n)]: a negative [n] means no limit. *)
Definition SetLimit (g : Group) (n : Z) : Group :=
  if n <? 0 then {| sem := None |} else {| sem := Some n |}.

(** [g.Go] can hand its function to a new goroutine when the semaphore
    takes one more token: always without a limit, and while fewer than
    [n] goroutines of the group are active otherwise. *)
Definition has_slot (g : Group) (active : nat) : Prop :=
  match sem g with
  | None => True
  | Some n => Z.of_nat active < n
  end.

End errgroup.

(** ** The source *)

Definition baseURL : string := "https://circleci.com/api/v1.1/".

Record Source := {
  name : string;
  token : string;
  sourceId : Z;
  jobId : Z;
  verify : bool;
  jobPool : errgroup.Group;
  client : http.Client
}.

Definition Type_ (s : Source) : sourcespb.SourceType :=
  sourcespb.SourceType_SOURCE_TYPE_CIRCLECI.

Definition SourceID (s : Source) : Z := sourceId s.

Definition JobID (s : Source) : Z := jobId s.

(** [Init]: the fields are set before the connection is unmarshalled, so
    they are set also when [Init] returns the unmarshalling error; the
    token is stored only for a token credential. *)
Definition Init (rt : Runtime) (s : Source) (name' : string) (jobId' sourceId' : Z)
    (verify' : bool) (connection : anypb.Any) (concurrency : Z)
    : Source * option error :=
  let s := {| name := name'; token := token s; sourceId := sourceId';
              jobId := jobId'; verify := verify';
              jobPool := errgroup.SetLimit errgroup.zero concurrency;
              client := common_RetryableHttpClientTimeout rt 3 |} in
  match anypb_UnmarshalTo rt connection with
  | Err err => (s, Some (errors.WrapPrefix err "error unmarshalling connection"))
  | Ok conn =>
      match sourcespb.Credential conn with
      | Some (sourcespb.CircleCI_Token _) =>
          ({| name := name s; token := sourcespb.GetToken conn;
              sourceId := sourceId s; jobId := jobId s; verify := verify s;
              jobPool := jobPool s; client := client s |}, None)
      | _ => (s, None)
      end
  end.

(** ** The error aggregator *)

(** [scanErrors]: the counter is a [uint64]; the mutex guards the append
    and holds no data. *)
Record scanErrors := { count : Z; errors : list error }.

(** [newScanErrors(projects)]: no error yet (the argument is only the
    capacity reserved for the slice). *)
Definition newScanErrors (projects : nat) : scanErrors :=
  {| count := 0; errors := [] |}.

(** [atomic.AddUint64(addr, delta)], wrapping at [2^64]. *)
Definition atomic_AddUint64 (addr delta : Z) : Z := (addr + delta) mod 2 ^ 64.

(** The two steps of [add], each atomic: the counter, then the append
    under the mutex. *)
Definition add_count (s : scanErrors) : scanErrors :=
  {| count := atomic_AddUint64 (count s) 1; errors := errors s |}.

Definition add_append (s : scanErrors) (err : error) : scanErrors :=
  {| count := count s; errors := errors s ++ [err] |}.

Definition add (s : scanErrors) (err : error) : scanErrors :=
  add_append (add_count s) err.

(** ** Goroutines as sequences of atomic operations

    What a goroutine of the source does to anything outside itself is one
    of five operations.  A function of the source is a value of [Go A]:
    the operations it performs, in order, and its result. *)

Inductive Op : Type :=
| HttpDo (req : http.Request)       (* s.client.Do(req) *)
| ChanSend (chunk : sources.Chunk)  (* chunksChan <- chunk *)
| CountAdd                          (* atomic.AddUint64(&s.count, 1) in add *)
| ErrorsAppend (err : error)        (* the append of add, under its mutex *)
| ScannedAdd.                       (* atomic.AddUint64(&scanned, 1) *)

Definition Go (A : Type) : Type := list Op * A.

Definition ret {A} (a : A) : Go A := ([], a).

Definition bind {A B} (m : Go A) (k : A → Go B) : Go B :=
  let '(ops, a) := m in
  let '(ops', b) := k a in
  (ops ++ ops', b).

Notation "'let*' x ':=' m 'in' k" := (bind m (fun x => k))
  (at level 10, x pattern, m at level 100, k at level 200).

Definition emit (op : Op) : Go unit := ([op], tt).

(** [s.client.Do(req)]. *)
Definition Do (c : http.Client) (req : http.Request) : Go (result http.Response) :=
  let* _ := emit (HttpDo req) in ret (c req).

(** [scanErrs.add(err)] seen from the goroutine that calls it. *)
Definition scanErrs_add (err : error) : Go unit :=
  let* _ := emit CountAdd in emit (ErrorsAppend err).

(** Where control is after a statement of a function body: at the next
    statement, or out of the function with its return value. *)
Inductive Flow : Type :=
| Next
| Return (r : option error).

Definition stmt (m : Go unit) : Go Flow := let* _ := m in ret Next.

Definition andThen (m k : Go Flow) : Go Flow :=
  let* f := m in
  match f with
  | Next => k
  | Return r => ret (Return r)
  end.

Notation "m ;; k" := (andThen m k) (at level 100, k at level 200, right associativity).

(** [for _, x := range xs { body }]. *)
Fixpoint forRange {X} (xs : list X) (body : X → Go Flow) : Go Flow :=
  match xs with
  | [] => ret Next
  | x :: xs' => body x ;; forRange xs' body
  end.

(** ** The Remote Tree Accessor *)

Definition projects (rt : Runtime) (s : Source) : Go (result (list project)) :=
  let reqURL := baseURL +:+ "projects" in
  match http_NewRequest rt "GET" reqURL with
  | Err err => ret (Err err)
  | Ok req =>
      let req := http.Header_Set req "Circle-Token" (token s) in
      let req := http.Header_Set req "Accept" "application/json" in
      let* r := Do (client s) req in
      match r with
      | Err err => ret (Err err)
      | Ok res =>
          if (399 <? http.StatusCode res) && (http.StatusCode res <? 500) then
            ret (Err (errorString
                        ("invalid credentials, status " +:+ fmt.d (http.StatusCode res))))
          else
            match http.Body res with
            | Err err => ret (Err err)
            | Ok body => ret (json_Decode_projects rt body)
            end
      end
  end.

Definition buildsForProject (rt : Runtime) (s : Source) (proj : project)
    : Go (result (list build)) :=
  let reqURL :=
    baseURL +:+ "project/" +:+ VCS proj +:+ "/" +:+ Username proj
            +:+ "/" +:+ RepoName proj in
  match http_NewRequest rt "GET" reqURL with
  | Err err => ret (Err err)
  | Ok req =>
      let req := http.Header_Set req "Circle-Token" (token s) in
      let req := http.Header_Set req "Accept" "application/json" in
      let* r := Do (client s) req in
      match r with
      | Err err => ret (Err err)
      | Ok res =>
          match http.Body res with
          | Err err => ret (Err err)
          | Ok body => ret (json_Decode_builds rt body)
          end
      end
  end.

Definition stepsForBuild (rt : Runtime) (s : Source) (proj : project) (bld : build)
    : Go (result (list buildStep)) :=
  let reqURL :=
    baseURL +:+ "project/" +:+ VCS proj +:+ "/" +:+ Username proj
            +:+ "/" +:+ RepoName proj +:+ "/" +:+ fmt.d (BuildNum bld) in
  match http_NewRequest rt "GET" reqURL with
  | Err err => ret (Err err)
  | Ok req =>
      let req := http.Header_Set req "Circle-Token" (token s) in
      let req := http.Header_Set req "Accept" "application/json" in
      let* r := Do (client s) req in
      match r with
      | Err err => ret (Err err)
      | Ok res =>
          match http.Body res with
          | Err err => ret (Err err)
          | Ok body => ret (json_Decode_buildRes rt body)
          end
      end
  end.

(** ** The Chunk Emitter *)

Definition chunkAction (rt : Runtime) (s : Source) (proj : project) (bld : build)
    (act : action) (stepName : string) : Go (option error) :=
  match http_NewRequest rt "GET" (OutputURL act) with
  | Err err => ret (Some err)
  | Ok req =>
      let* r := Do (client s) req in
      match r with
      | Err err => ret (Some err)
      | Ok res =>
          match http.Body res with
          | Err err => ret (Some err)
          | Ok logOutput =>
              let linkURL :=
                "https://app.circleci.com/pipelines/" +:+ VCS proj +:+ "/"
                  +:+ Username proj +:+ "/" +:+ RepoName proj +:+ "/"
                  +:+ fmt.d (BuildNum bld) in
              let chunk :=
                {| sources.SourceType := Type_ s;
                   sources.SourceName := name s;
                   sources.SourceID := SourceID s;
                   sources.Data := removeCircleSha1Line logOutput;
                   sources.SourceMetadata :=
                     source_metadatapb.MetaData_Circleci
                       {| source_metadatapb.VcsType := VCS proj;
                          source_metadatapb.Username := Username proj;
                          source_metadatapb.Repository := RepoName proj;
                          source_metadatapb.BuildNumber := BuildNum bld;
                          source_metadatapb.BuildStep := stepName;
                          source_metadatapb.Link := linkURL |};
                   sources.Verify := verify s |} in
              let* _ := emit (ChanSend chunk) in
              ret None
          end
      end
  end.

(** ** The project task: the function [Chunks] hands to the pool *)

(** The verb [%v] on an [action]. *)
Definition fmt_v_action (a : action) : string :=
  "{" +:+ fmt.d (Index a) +:+ " " +:+ OutputURL a +:+ "}".

Definition projectTask (rt : Runtime) (s : Source) (proj : project) : Go Flow :=
  let* r := buildsForProject rt s proj in
  match r with
  | Err err =>
      stmt (scanErrs_add
              (fmt.Errorf_w ("error getting builds for project " +:+ RepoName proj +:+ ": ") err)) ;;
      ret (Return None)
  | Ok builds =>
      forRange builds (fun bld =>
        let* r := stepsForBuild rt s proj bld in
        match r with
        | Err err =>
            stmt (scanErrs_add
                    (fmt.Errorf_w ("error getting steps for build " +:+ fmt.d (BuildNum bld) +:+ ": ") err)) ;;
            ret (Return None)
        | Ok buildSteps =>
            forRange buildSteps (fun step =>
              forRange (Actions step) (fun action =>
                let* err := chunkAction rt s proj bld action (Name step) in
                match err with
                | Some err =>
                    stmt (scanErrs_add
                            (fmt.Errorf_w ("error chunking action " +:+ fmt_v_action action +:+ ": ") err)) ;;
                    ret (Return None)
                | None => ret Next
                end))
        end) ;;
      stmt (emit ScannedAdd) ;;
      ret (Return None)
  end.

(** The bodies of the three nested loops of the task, outermost first,
    each under a name of its own. *)
Definition walkAction (rt : Runtime) (s : Source) (proj : project) (bld : build)
    (stepName : string) (action : action) : Go Flow :=
  let* err := chunkAction rt s proj bld action stepName in
  match err with
  | Some err =>
      stmt (scanErrs_add
              (fmt.Errorf_w ("error chunking action " +:+ fmt_v_action action +:+ ": ") err)) ;;
      ret (Return None)
  | None => ret Next
  end.

Definition walkStep (rt : Runtime) (s : Source) (proj : project) (bld : build)
    (step : buildStep) : Go Flow :=
  forRange (Actions step) (walkAction rt s proj bld (Name step)).

Definition walkBuild (rt : Runtime) (s : Source) (proj : project) (bld : build)
    : Go Flow :=
  let* r := stepsForBuild rt s proj bld in
  match r with
  | Err err =>
      stmt (scanErrs_add
              (fmt.Errorf_w ("error getting steps for build " +:+ fmt.d (BuildNum bld) +:+ ": ") err)) ;;
      ret (Return None)
  | Ok buildSteps => forRange buildSteps (walkStep rt s proj bld)
  end.

(** The chunks a sequence of operations sends, and the errors it appends
    to the aggregator, in order. *)
Definition sends (ops : list Op) : list sources.Chunk :=
  omap (fun op => match op with ChanSend chunk => Some chunk | _ => None end) ops.

Definition appends (ops : list Op) : list error :=
  omap (fun op => match op with ErrorsAppend err => Some err | _ => None end) ops.

(** One tick for every increment of the aggregator's counter among the
    operations. *)
Definition counts (ops : list Op) : list unit :=
  omap (fun op => match op with CountAdd => Some tt | _ => None end) ops.

(** An operation that leaves the aggregator and the counters alone: a
    request or a send. *)
Definition quiet (op : Op) : Prop :=
  match op with
  | HttpDo _ | ChanSend _ => True
  | _ => False
  end.

(** How a loop body of the task can leave control: at the next statement
    after requests and sends only, or returned [nil] right after
    recording one error, with only requests and sends before it. *)
Inductive settled : Go Flow → Prop :=
| settled_next ops :
    Forall quiet ops → settled (ops, Next)
| settled_failed ops err :
    Forall quiet ops → settled (ops ++ [CountAdd; ErrorsAppend err], Return None).

(** ** What the goroutines share, and the pool that runs them *)

(** The output channel (what was sent on it, oldest first), the error
    aggregator and the counter of scanned projects. *)
Record Shared := {
  chunksChan : list sources.Chunk;
  scanErrs : scanErrors;
  scanned : Z
}.

(** One atomic operation on the shared state.  A request changes nothing
    the goroutines share. *)
Definition exec (op : Op) (sh : Shared) : Shared :=
  match op with
  | HttpDo _ => sh
  | ChanSend chunk =>
      {| chunksChan := chunksChan sh ++ [chunk]; scanErrs := scanErrs sh;
         scanned := scanned sh |}
  | CountAdd =>
      {| chunksChan := chunksChan sh; scanErrs := add_count (scanErrs sh);
         scanned := scanned sh |}
  | ErrorsAppend err =>
      {| chunksChan := chunksChan sh; scanErrs := add_append (scanErrs sh) err;
         scanned := scanned sh |}
  | ScannedAdd =>
      {| chunksChan := chunksChan sh; scanErrs := scanErrs sh;
         scanned := atomic_AddUint64 (scanned sh) 1 |}
  end.

(** The state of the fan-out loop of [Chunks]: the projects the loop has
    still to hand to [jobPool.Go], the operations each active goroutine
    has still to perform, and the shared state. *)
Record Pool := {
  todo : list project;
  running : list (list Op);
  shared : Shared
}.

Section PoolSteps.
Variable g : errgroup.Group.
Variable task : project → list Op.

(** One step: [jobPool.Go] starts the next project's task if the group
    has a slot (and blocks otherwise); an active goroutine performs its
    next operation; a goroutine that has none left ends and frees its
    slot. *)
Inductive step : Pool → Pool → Prop :=
| step_Go proj td run sh :
    errgroup.has_slot g (length run) →
    step {| todo := proj :: td; running := run; shared := sh |}
         {| todo := td; running := run ++ [task proj]; shared := sh |}
| step_op td run1 op ops run2 sh :
    step {| todo := td; running := run1 ++ (op :: ops) :: run2; shared := sh |}
         {| todo := td; running := run1 ++ ops :: run2; shared := exec op sh |}
| step_end td run1 run2 sh :
    step {| todo := td; running := run1 ++ [] :: run2; shared := sh |}
         {| todo := td; running := run1 ++ run2; shared := sh |}.

(** [jobPool.Wait()] returns: every task was started and has ended. *)
Definition drained (p : Pool) : Prop := todo p = [] ∧ running p = [].

End PoolSteps.

(** ** [Chunks] *)

(** The pool when the fan-out starts, on a channel that has carried
    [sent]. *)
Definition fanOut (sent : list sources.Chunk) (projs : list project) : Pool :=
  {| todo := projs; running := [];
     shared := {| chunksChan := sent;
                  scanErrs := newScanErrors (length projs);
                  scanned := 0 |} |}.

(** The pool states a call of [Chunks] goes through once the project
    listing has succeeded. *)
Definition Chunks_reaches (rt : Runtime) (s : Source)
    (sent : list sources.Chunk) (projs : list project) (p : Pool) : Prop :=
  rtc (step (jobPool s) (fun proj => (projectTask rt s proj).1))
      (fanOut sent projs) p.

(** [Chunks rt s sent sent' r]: a call of [Chunks] on a channel that has
    carried [sent] returns [r] and leaves the channel having carried
    [sent'].  Logging is not modelled. *)
Inductive Chunks (rt : Runtime) (s : Source) (sent : list sources.Chunk)
    : list sources.Chunk → option error → Prop :=
| Chunks_listing_failed err :
    (projects rt s).2 = Err err →
    Chunks rt s sent sent (Some (fmt.Errorf_w "error getting projects: " err))
| Chunks_waited projs p :
    (projects rt s).2 = Ok projs →
    Chunks_reaches rt s sent projs p →
    drained p →
    Chunks rt s sent (chunksChan (shared p)) None.

(** What is left to do in a pool: every step uses some of it up. *)
Definition workload (task : project → list Op) (p : Pool) : nat :=
  sum_list_with (fun ops => S (length ops)) (running p)
  + sum_list_with (fun proj => S (S (length (task proj)))) (todo p).

(** What the active and the waiting tasks of a pool will still append to
    a list of the shared state, [pick] telling which operations append to
    it and what. *)
Definition pending {X} (task : project → list Op) (pick : Op → option X) (p : Pool)
    : list X :=
  omap pick (concat (running p)) ++ omap pick (concat (map task (todo p))).

(** The request of a listing call: a [GET] of [url] with the two headers. *)
Definition listingRequest (s : Source) (url : string) : http.Request :=
  http.Header_Set
    (http.Header_Set {| http.Method := "GET"; http.URL := url; http.Header := ∅ |}
                     "Circle-Token" (token s))
    "Accept" "application/json".

(** The URLs of the three listing calls. *)
Definition projectsURL : string := baseURL +:+ "projects".

Definition buildsURL (proj : project) : string :=
  baseURL +:+ "project/" +:+ VCS proj +:+ "/" +:+ Username proj
          +:+ "/" +:+ RepoName proj.

Definition stepsURL (proj : project) (bld : build) : string :=
  baseURL +:+ "project/" +:+ VCS proj +:+ "/" +:+ Username proj
          +:+ "/" +:+ RepoName proj +:+ "/" +:+ fmt.d (BuildNum bld).

(** The request of a log fetch: a bare [GET]. *)
Definition logRequest (act : action) : http.Request :=
  {| http.Method := "GET"; http.URL := OutputURL act; http.Header := ∅ |}.

(** The chunk [chunkAction] builds from a log body. *)
Definition chunkOf (s : Source) (proj : project) (bld : build) (stepName : string)
    (logOutput : list byte) : sources.Chunk :=
  {| sources.SourceType := sourcespb.SourceType_SOURCE_TYPE_CIRCLECI;
     sources.SourceName := name s;
     sources.SourceID := sourceId s;
     sources.Data := removeCircleSha1Line logOutput;
     sources.SourceMetadata :=
       source_metadatapb.MetaData_Circleci
         {| source_metadatapb.VcsType := VCS proj;
            source_metadatapb.Username := Username proj;
            source_metadatapb.Repository := RepoName proj;
            source_metadatapb.BuildNumber := BuildNum bld;
            source_metadatapb.BuildStep := stepName;
            source_metadatapb.Link :=
              "https://app.circleci.com/pipelines/" +:+ VCS proj +:+ "/"
                +:+ Username proj +:+ "/" +:+ RepoName proj +:+ "/"
                +:+ fmt.d (BuildNum bld) |};
     sources.Verify := verify s |}.

(** ** A small remote, for examples

    Five projects.  [api] and [cli] have one build, one step and one
    action each.  The build listing of [web] is refused by the transport.
    [ops] has two builds; the second action of the first step of its
    first build cannot be fetched.  [doc] has three builds; the step
    listing of the second is refused.  Whatever else is asked is answered
    [404] with an empty JSON object.  The decoders know the few bodies
    this remote sends. *)

Module Demo.

Definition B (s : string) : list byte := String.list_byte_of_string s.

Definition api : project := {| VCS := "github"; Username := "acme"; RepoName := "api" |}.
Definition web : project := {| VCS := "github"; Username := "acme"; RepoName := "web" |}.
Definition cli : project := {| VCS := "github"; Username := "acme"; RepoName := "cli" |}.
Definition ops : project := {| VCS := "github"; Username := "acme"; RepoName := "ops" |}.
Definition doc : project := {| VCS := "github"; Username := "acme"; RepoName := "doc" |}.

Definition apiLog : action := {| Index := 0; OutputURL := "https://logs.example/api/42/0" |}.
Definition cliLog : action := {| Index := 0; OutputURL := "https://logs.example/cli/7/0" |}.
Definition opsLog : action := {| Index := 0; OutputURL := "https://logs.example/ops/1/0" |}.
Definition lostLog : action := {| Index := 1; OutputURL := "https://logs.example/lost" |}.
Definition lateLog : action := {| Index := 2; OutputURL := "https://logs.example/late" |}.
Definition docLog : action := {| Index := 0; OutputURL := "https://logs.example/doc/3/0" |}.

Definition apiBody : list byte :=
  B "line1" ++ [newline] ++ B "CIRCLE_SHA1=abcd" ++ [newline] ++ B "line3".

Definition refused : error := errorString "connection refused".

Definition ok (body : list byte) : result http.Response :=
  Ok {| http.StatusCode := 200; http.Body := Ok body |}.

Definition remote : http.Client := fun req =>
  let url := http.URL req in
  if decide (url = "https://circleci.com/api/v1.1/projects") then ok (B "[api,web,cli,ops,doc]")
  else if decide (url = "https://circleci.com/api/v1.1/project/github/acme/api") then ok (B "[42]")
  else if decide (url = "https://circleci.com/api/v1.1/project/github/acme/web") then Err refused
  else if decide (url = "https://circleci.com/api/v1.1/project/github/acme/cli") then ok (B "[7]")
  else if decide (url = "https://circleci.com/api/v1.1/project/github/acme/ops") then ok (B "[1,2]")
  else if decide (url = "https://circleci.com/api/v1.1/project/github/acme/doc") then ok (B "[3,4,5]")
  else if decide (url = "https://circleci.com/api/v1.1/project/github/acme/api/42") then ok (B "{test}")
  else if decide (url = "https://circleci.com/api/v1.1/project/github/acme/cli/7") then ok (B "{build}")
  else if decide (url = "https://circleci.com/api/v1.1/project/github/acme/ops/1") then ok (B "{deploy,notify}")
  else if decide (url = "https://circleci.com/api/v1.1/project/github/acme/ops/2") then ok (B "{build}")
  else if decide (url = "https://circleci.com/api/v1.1/project/github/acme/doc/3") then ok (B "{docs}")
  else if decide (url = "https://circleci.com/api/v1.1/project/github/acme/doc/4") then Err refused
  else if decide (url = "https://circleci.com/api/v1.1/project/github/acme/doc/5") then ok (B "{docs}")
  else if decide (url = "https://logs.example/api/42/0") then ok apiBody
  else if decide (url = "https://logs.example/cli/7/0") then ok (B "done")
  else if decide (url = "https://logs.example/ops/1/0") then ok (B "deployed")
  else if decide (url = "https://logs.example/lost") then Err refused
  else if decide (url = "https://logs.example/late") then ok (B "late")
  else if decide (url = "https://logs.example/doc/3/0") then ok (B "rendered")
  else Ok {| http.StatusCode := 404; http.Body := Ok (B "{}") |}.

(** A remote that rejects the credential on every call. *)
Definition rejecting : http.Client := fun _ =>
  Ok {| http.StatusCode := 401; http.Body := Ok (B "{}") |}.

Definition syntaxError : error := errorString "invalid character".
Definition typeError : error := errorString "json: cannot unmarshal object into Go value".

Definition rt (c : http.Client) : Runtime :=
  {| url_Parse := fun _ => None;
     json_Decode_projects := fun body =>
       if decide (body = B "[api,web,cli,ops,doc]") then Ok [api; web; cli; ops; doc]
       else if decide (body = B "[]") then Ok []
       else if decide (body = B "{}") then Err typeError
       else Err syntaxError;
     json_Decode_builds := fun body =>
       if decide (body = B "[42]") then Ok [{| BuildNum := 42 |}]
       else if decide (body = B "[7]") then Ok [{| BuildNum := 7 |}]
       else if decide (body = B "[1,2]") then Ok [{| BuildNum := 1 |}; {| BuildNum := 2 |}]
       else if decide (body = B "[3,4,5]")
            then Ok [{| BuildNum := 3 |}; {| BuildNum := 4 |}; {| BuildNum := 5 |}]
       else if decide (body = B "[]") then Ok []
       else if decide (body = B "{}") then Err typeError
       else Err syntaxError;
     json_Decode_buildRes := fun body =>
       if decide (body = B "{test}") then Ok [{| Name := "test"; Actions := [apiLog] |}]
       else if decide (body = B "{build}") then Ok [{| Name := "build"; Actions := [cliLog] |}]
       else if decide (body = B "{deploy,notify}")
            then Ok [{| Name := "deploy"; Actions := [opsLog; lostLog; lateLog] |};
                     {| Name := "notify"; Actions := [lateLog] |}]
       else if decide (body = B "{docs}") then Ok [{| Name := "docs"; Actions := [docLog] |}]
       else if decide (body = B "{}") then Ok []
       else Err syntaxError;
     anypb_UnmarshalTo := fun any =>
       if decide (anypb.TypeUrl any = "type.googleapis.com/sources.CircleCI") then
         if decide (anypb.Value any = []) then Ok {| sourcespb.Credential := None |}
         else Ok {| sourcespb.Credential :=
                      Some (sourcespb.CircleCI_Token
                              (String.string_of_list_byte (anypb.Value any))) |}
       else Err (errorString "mismatched message type");
     common_RetryableHttpClientTimeout := fun _ => c |}.

(** The source before [Init]; [Init] replaces its client. *)
Definition fresh : Source :=
  {| name := ""; token := ""; sourceId := 0; jobId := 0; verify := false;
     jobPool := errgroup.zero; client := fun _ => Err refused |}.

Definition withToken : anypb.Any :=
  {| anypb.TypeUrl := "type.googleapis.com/sources.CircleCI"; anypb.Value := B "secret" |}.

Definition withoutCredential : anypb.Any :=
  {| anypb.TypeUrl := "type.googleapis.com/sources.CircleCI"; anypb.Value := [] |}.

(** The source after [Init] with a token and a limit of two tasks. *)
Definition src : Source := (Init (rt remote) fresh "circleci" 1 2 true withToken 2).1.

(** The same against the rejecting remote. *)
Definition rejected : Source := (Init (rt rejecting) fresh "circleci" 1 2 true withToken 2).1.

(** The pool of a run over the five projects once the tasks of the first
    two have been started. *)
Definition twoActive : Pool :=
  {| todo := [cli; ops; doc];
     running := [(projectTask (rt remote) src api).1;
                 (projectTask (rt remote) src web).1];
     shared := shared (fanOut [] [api; web; cli; ops; doc]) |}.

(** The chunk built by [src] for a project, a build, a step and the
    sanitized body. *)
Definition chunk (proj : project) (buildNumber : Z) (stepName link : string)
    (data : list byte) : sources.Chunk :=
  {| sources.SourceType := sourcespb.SourceType_SOURCE_TYPE_CIRCLECI;
     sources.SourceName := "circleci";
     sources.SourceID := 2;
     sources.Data := data;
     sources.SourceMetadata :=
       source_metadatapb.MetaData_Circleci
         {| source_metadatapb.VcsType := VCS proj;
            source_metadatapb.Username := Username proj;
            source_metadatapb.Repository := RepoName proj;
            source_metadatapb.BuildNumber := buildNumber;
            source_metadatapb.BuildStep := stepName;
            source_metadatapb.Link := link |};
     sources.Verify := true |}.

Definition apiChunk : sources.Chunk :=
  chunk api 42 "test" "https://app.circleci.com/pipelines/github/acme/api/42"
        (B "line1" ++ [newline] ++ B "line3").

Definition cliChunk : sources.Chunk :=
  chunk cli 7 "build" "https://app.circleci.com/pipelines/github/acme/cli/7" (B "done").

Definition opsChunk : sources.Chunk :=
  chunk ops 1 "deploy" "https://app.circleci.com/pipelines/github/acme/ops/1" (B "deployed").

Definition docChunk : sources.Chunk :=
  chunk doc 3 "docs" "https://app.circleci.com/pipelines/github/acme/doc/3" (B "rendered").

(** The errors recorded for [web], [ops] and [doc]. *)
Definition webError : error :=
  wrapError "error getting builds for project web: connection refused" refused.

Definition opsError : error :=
  wrapError "error chunking action {1 https://logs.example/lost}: connection refused" refused.

Definition docError : error :=
  wrapError "error getting steps for build 4: connection refused" refused.

End Demo.

(** *** The sanitizer as the specification words it

    "Split on the newline byte, drop every segment containing the marker,
    rejoin the survivors with the newline byte": the three steps written
    on their own, by structural recursion, to be compared with the code. *)

(** The segments of [x] between newline bytes. *)
Fixpoint segments (x : list byte) : list (list byte) :=
  match x with
  | [] => [[]]
  | b :: x' =>
      if decide (b = newline) then [] :: segments x'
      else match segments x' with
           | [] => [[b]]
           | l :: ls => (b :: l) :: ls
           end
  end.

(** A line carries the marker when the marker is a contiguous part of it. *)
Definition has_marker (line : list byte) : Prop :=
  ∃ pre post, line = pre ++ circleSha1 ++ post.

(** Segments separated again by one newline byte each. *)
Fixpoint rejoin (ls : list (list byte)) : list byte :=
  match ls with
  | [] => []
  | [l] => l
  | l :: ls' => l ++ newline :: rejoin ls'
  end.

(** ** Properties of the byte helpers *)

Section BytesFacts.
Implicit Types (s sep pre post : list byte) (c : byte).

Lemma HasPrefix_spec s sep :
  bytes.HasPrefix s sep = true ↔ ∃ post, s = sep ++ post.
Proof.
  revert s; induction sep as [|p sep IH]; intros s; simpl.
  - split; [intros _; by exists s | done].
  - destruct s as [|b s].
    + split; [done | intros [post ?]; done].
    + destruct (decide (b = p)) as [->|Hne].
      * rewrite IH. split; intros [post Hp]; exists post; congruence.
      * split; [done | intros [post Hp]; congruence].
Qed.

Lemma Index_lower s sep : -1 ≤ bytes.Index s sep.
Proof.
  induction s as [|b s IH]; simpl; destruct (bytes.HasPrefix _ sep); try lia.
  destruct (Z.ltb_spec (bytes.Index s sep) 0); lia.
Qed.

(** [Index] finds the separator exactly when it occurs somewhere. *)
Lemma Index_found s sep :
  0 ≤ bytes.Index s sep ↔ ∃ pre post, s = pre ++ sep ++ post.
Proof.
  induction s as [|b s IH]; simpl.
  - destruct (bytes.HasPrefix [] sep) eqn:Hp.
    + apply HasPrefix_spec in Hp as [post Hp].
      split; [intros _; exists [], post; done | lia].
    + split; [lia | intros (pre & post & Heq)].
      symmetry in Heq. apply app_eq_nil in Heq as [-> Heq].
      apply app_eq_nil in Heq as [-> ->].
      destruct (bytes.HasPrefix [] []) eqn:E; [congruence | done].
  - destruct (bytes.HasPrefix (b :: s) sep) eqn:Hp.
    + apply HasPrefix_spec in Hp as [post Hp].
      split; [intros _; exists [], post; done | lia].
    + assert (Hnp : ¬ ∃ post, b :: s = sep ++ post).
      { rewrite <- HasPrefix_spec. congruence. }
      destruct (Z.ltb_spec (bytes.Index s sep) 0) as [Hlt|Hge].
      * split; [lia | intros (pre & post & Heq)].
        destruct pre as [|b' pre]; [destruct Hnp; eauto |].
        simplify_eq/=. apply proj2 in IH.
        specialize (IH (ex_intro _ pre (ex_intro _ post eq_refl))). lia.
      * split; [intros _ | lia].
        apply IH in Hge as (pre & post & ->). by exists (b :: pre), post.
Qed.

Lemma Contains_spec s sep :
  bytes.Contains s sep = true ↔ ∃ pre post, s = pre ++ sep ++ post.
Proof.
  rewrite <- Index_found. unfold bytes.Contains.
  pose proof (Index_lower s sep).
  destruct (Z.eqb_spec (bytes.Index s sep) (-1)); simpl; split; (done || lia).
Qed.

(** With a one-byte separator [Index] is the position of its first
    occurrence. *)
Lemma Index_single s c :
  ((c ∉ s) ∧ bytes.Index s [c] = -1)
  ∨ (∃ pre post, s = pre ++ c :: post ∧ (c ∉ pre)
                 ∧ bytes.Index s [c] = Z.of_nat (length pre)).
Proof.
  induction s as [|b s IH].
  - left. split; [apply not_elem_of_nil | done].
  - cbn [bytes.Index bytes.HasPrefix].
    destruct (decide (b = c)) as [->|Hne].
    + right. exists [], s. split_and!; [done | apply not_elem_of_nil | done].
    + destruct IH as [[Hnin ->] | (pre & post & -> & Hnin & ->)].
      * left. split; [| done]. rewrite not_elem_of_cons. done.
      * right. exists (b :: pre), post. split_and!; [done | |].
        -- rewrite not_elem_of_cons. done.
        -- destruct (Z.ltb_spec (Z.of_nat (length pre)) 0); simpl length; lia.
Qed.

Lemma segments_nonempty x : segments x ≠ [].
Proof.
  destruct x as [|b x]; simpl; [done |].
  destruct (decide (b = newline)); [done |]. by destruct (segments x).
Qed.

Lemma segments_no_newline x : newline ∉ x → segments x = [x].
Proof.
  induction x as [|b x IH]; [done |].
  rewrite not_elem_of_cons. intros [Hne Hnin]. simpl.
  destruct (decide (b = newline)); [done |]. by rewrite IH.
Qed.

Lemma segments_app_newline pre post :
  newline ∉ pre → segments (pre ++ newline :: post) = pre :: segments post.
Proof.
  induction pre as [|b pre IH]; simpl.
  - intros _. destruct (decide (newline = newline)); done.
  - rewrite not_elem_of_cons. intros [Hne Hnin].
    destruct (decide (b = newline)); [done |]. by rewrite IH.
Qed.

Lemma segments_free x : Forall (λ l, newline ∉ l) (segments x).
Proof.
  induction x as [|b x IH]; simpl.
  - repeat constructor. apply not_elem_of_nil.
  - destruct (decide (b = newline)).
    + constructor; [apply not_elem_of_nil | done].
    + destruct (segments x) as [|l ls].
      * repeat constructor. rewrite not_elem_of_cons. split; [done | apply not_elem_of_nil].
      * inversion IH; subst. constructor; [| done].
        rewrite not_elem_of_cons. done.
Qed.

(** Go's [Split] on the newline byte computes the segments. *)
Lemma genSplit_segments n x :
  (length x ≤ n)%nat → bytes.genSplit n x [newline] = segments x.
Proof.
  revert x; induction n as [|n IH]; intros x Hlen.
  - destruct x; [done | simpl in Hlen; lia].
  - simpl.
    destruct (Index_single x newline) as [[Hnin ->] | (pre & post & -> & Hnin & ->)].
    + simpl. by rewrite segments_no_newline.
    + destruct (Z.ltb_spec (Z.of_nat (length pre)) 0) as [|_]; [lia |].
      rewrite Nat2Z.id, take_app_length.
      rewrite segments_app_newline by done. f_equal.
      replace (length pre + 1)%nat with (length (pre ++ [newline])).
      2:{ rewrite length_app. done. }
      rewrite (assoc_L _ pre [newline] post : pre ++ newline :: post = (pre ++ [newline]) ++ post).
      rewrite drop_app_length. apply IH.
      rewrite !length_app in Hlen. simpl in Hlen. lia.
Qed.

Lemma Split_segments x : bytes.Split x [newline] = segments x.
Proof. by apply genSplit_segments. Qed.

Lemma Join_rejoin ls : bytes.Join ls [newline] = rejoin ls.
Proof.
  induction ls as [|l ls IH]; [done |].
  destruct ls as [|l' ls]; [done |].
  change (l ++ [newline] ++ bytes.Join (l' :: ls) [newline] = l ++ newline :: rejoin (l' :: ls)).
  by rewrite IH.
Qed.

(** Splitting what was joined gives the joined segments back, provided
    there is at least one and none holds a newline of its own. *)
Lemma segments_rejoin ls :
  ls ≠ [] → Forall (λ l, newline ∉ l) ls → segments (rejoin ls) = ls.
Proof.
  induction ls as [|l ls IH]; [done |].
  intros _ Hall. inversion Hall as [|? ? Hl Hls]; subst.
  destruct ls as [|l' ls].
  - by apply segments_no_newline.
  - change (segments (l ++ newline :: rejoin (l' :: ls)) = l :: l' :: ls).
    rewrite segments_app_newline by done. f_equal. by apply IH.
Qed.

Lemma rejoin_segments x : rejoin (segments x) = x.
Proof.
  induction x as [|b x IH]; [done |]. simpl.
  destruct (decide (b = newline)) as [->|Hne].
  - pose proof (segments_nonempty x).
    destruct (segments x) as [|l ls] eqn:E; [done |].
    change (rejoin ([] :: l :: ls)) with (newline :: rejoin (l :: ls)).
    by rewrite IH.
  - destruct (segments x) as [|l ls] eqn:E.
    + by destruct (segments_nonempty x).
    + destruct ls as [|l' ls]; simpl in *; by rewrite IH.
Qed.

End BytesFacts.

#[global] Instance has_marker_dec line : Decision (has_marker line).
Proof.
  refine (cast_if (decide (bytes.Contains line circleSha1 = true)));
    unfold has_marker; by rewrite <- Contains_spec.
Defined.

(** The sanitizer in the specification's three steps. *)
Definition sanitize_spec (x : list byte) : list byte :=
  rejoin (filter (λ l, ¬ has_marker l) (segments x)).

(** ** Properties of the sanitizer *)

Section Sanitizer.
Implicit Types (x : list byte) (ls : list (list byte)).

(** The appending loop of [removeCircleSha1Line] is a filter. *)
Lemma keep_loop_filter ls acc :
  fold_left
    (fun result line =>
       if negb (bytes.Contains line circleSha1) then result ++ [line] else result)
    ls acc
  = acc ++ filter (λ l, ¬ has_marker l) ls.
Proof.
  revert acc; induction ls as [|l ls IH]; intros acc; simpl.
  - by rewrite app_nil_r.
  - rewrite IH, filter_cons.
    destruct (bytes.Contains l circleSha1) eqn:Hc; simpl.
    + rewrite decide_False; [done |].
      intros Hn. apply Hn. by apply Contains_spec.
    + rewrite decide_True; [by rewrite <- app_assoc |].
      intros Hm. apply Contains_spec in Hm. congruence.
Qed.

Lemma removeCircleSha1Line_unfold x :
  removeCircleSha1Line x = rejoin (filter (λ l, ¬ has_marker l) (segments x)).
Proof.
  unfold removeCircleSha1Line.
  by rewrite Split_segments, keep_loop_filter, Join_rejoin.
Qed.

Lemma filter_all {A} (P : A → Prop) `{!∀ a, Decision (P a)} (l : list A) :
  Forall P l → filter P l = l.
Proof.
  induction 1 as [|a l Ha _ IH]; [done |].
  by rewrite filter_cons, decide_True, IH.
Qed.

Lemma empty_line_unmarked : ¬ has_marker [].
Proof.
  intros (pre & post & Heq). symmetry in Heq.
  apply app_eq_nil in Heq as [_ Heq]. discriminate Heq.
Qed.

(** The lines of the sanitized output: the surviving lines of the
    input, or the single empty line of an empty output when none
    survived. *)
Lemma segments_removeCircleSha1Line x :
  segments (removeCircleSha1Line x)
  = match filter (λ l, ¬ has_marker l) (segments x) with
    | [] => [[]]
    | kept => kept
    end.
Proof.
  rewrite removeCircleSha1Line_unfold.
  destruct (filter _ (segments x)) as [|l ls] eqn:E; [done |].
  apply segments_rejoin; [done |]. rewrite <- E.
  apply Forall_forall. intros l' Hin.
  apply list_elem_of_filter in Hin as [_ Hin].
  revert l' Hin. apply Forall_forall, segments_free.
Qed.

End Sanitizer.

(** C3. For every byte input the sanitizer is exactly split on the newline
    byte, drop the segments that contain the marker [CIRCLE_SHA1=], rejoin
    with the newline byte.  Hence no line of the output contains the
    marker, the marker-free lines of the input are the lines of the output
    in the same order (they are all of them as soon as one survives; an
    input with no surviving line gives the empty output), and an input
    without any marker comes back byte for byte, empty leading and
    trailing segments included. *)
Theorem removeCircleSha1Line_filter_rejoin (x : list byte) :
  removeCircleSha1Line x = sanitize_spec x
  ∧ Forall (λ l, ¬ has_marker l) (segments (removeCircleSha1Line x))
  ∧ filter (λ l, ¬ has_marker l) (segments x)
      `sublist_of` segments (removeCircleSha1Line x)
  ∧ (filter (λ l, ¬ has_marker l) (segments x) ≠ []
     → segments (removeCircleSha1Line x)
       = filter (λ l, ¬ has_marker l) (segments x))
  ∧ (Forall (λ l, ¬ has_marker l) (segments x) → removeCircleSha1Line x = x).
Proof.
  pose proof (segments_removeCircleSha1Line x) as Hseg.
  split_and!.
  - apply removeCircleSha1Line_unfold.
  - rewrite Hseg.
    destruct (filter _ (segments x)) as [|l ls] eqn:E.
    + repeat constructor. apply empty_line_unmarked.
    + rewrite <- E. apply Forall_forall. intros l' Hin.
      by apply list_elem_of_filter in Hin as [? _].
  - rewrite Hseg.
    destruct (filter _ (segments x)) as [|l ls]; [apply sublist_nil_l | done].
  - intros Hne. rewrite Hseg.
    by destruct (filter _ (segments x)).
  - intros Hall. rewrite removeCircleSha1Line_unfold.
    rewrite filter_all by done. apply rejoin_segments.
Qed.

(** C7. The sanitizer is idempotent: sanitizing a sanitized input changes
    no byte. *)
Theorem removeCircleSha1Line_idempotent (x : list byte) :
  removeCircleSha1Line (removeCircleSha1Line x) = removeCircleSha1Line x.
Proof.
  rewrite (removeCircleSha1Line_unfold (removeCircleSha1Line x)).
  rewrite segments_removeCircleSha1Line, (removeCircleSha1Line_unfold x).
  destruct (filter _ (segments x)) as [|l ls] eqn:E.
  - rewrite filter_cons, decide_True by apply empty_line_unmarked. done.
  - rewrite <- E. f_equal.
    apply list_filter_filter_r. done.
Qed.

(** ** Properties of goroutine bodies *)

Section GoFacts.

Lemma andThen_Next ops (k : Go Flow) : ((ops, Next) ;; k) = (ops ++ k.1, k.2).
Proof. unfold andThen, bind. by destruct k. Qed.

Lemma andThen_Return ops r (k : Go Flow) : ((ops, Return r) ;; k) = (ops, Return r).
Proof. unfold andThen, bind, ret. by rewrite app_nil_r. Qed.

Lemma bind_ops {A B} (m : Go A) (k : A → Go B) :
  bind m k = (m.1 ++ (k m.2).1, (k m.2).2).
Proof. unfold bind. destruct m as [ops a]; simpl. by destruct (k a). Qed.




End GoFacts.

(** ** Properties of the accessors and of the emitter *)

Section AccessorFacts.
Variable rt : Runtime.
Variable s : Source.

Ltac run_listing :=
  unfold projects, buildsForProject, stepsForBuild, http_NewRequest;
  destruct (url_Parse rt _); [by left |]; right;
  unfold Do, emit, ret; rewrite !bind_ops; cbn [fst snd app];
  destruct (client s _) as [res|]; [| done];
  try destruct (_ && _); [done ..|];
  by destruct (http.Body res).

(** A listing call performs at most one operation, the request with
    the two headers. *)
Lemma projects_ops :
  (projects rt s).1 = [] ∨ (projects rt s).1 = [HttpDo (listingRequest s projectsURL)].
Proof. run_listing. Qed.

Lemma buildsForProject_ops proj :
  (buildsForProject rt s proj).1 = []
  ∨ (buildsForProject rt s proj).1 = [HttpDo (listingRequest s (buildsURL proj))].
Proof. run_listing. Qed.

Lemma stepsForBuild_ops proj bld :
  (stepsForBuild rt s proj bld).1 = []
  ∨ (stepsForBuild rt s proj bld).1 = [HttpDo (listingRequest s (stepsURL proj bld))].
Proof. run_listing. Qed.

(** The emitter either fails before or at its one request, having sent
    nothing, or performs the request and sends the chunk built from the
    body it read. *)
Lemma chunkAction_cases proj bld act stepName :
  (∃ err, chunkAction rt s proj bld act stepName = ([], Some err))
  ∨ (∃ err, chunkAction rt s proj bld act stepName = ([HttpDo (logRequest act)], Some err))
  ∨ (∃ res logOutput,
       client s (logRequest act) = Ok res ∧ http.Body res = Ok logOutput
       ∧ chunkAction rt s proj bld act stepName
         = ([HttpDo (logRequest act);
             ChanSend (chunkOf s proj bld stepName logOutput)], None)).
Proof.
  unfold chunkAction, http_NewRequest.
  destruct (url_Parse rt (OutputURL act)) as [err|]; [left; eauto |].
  fold (logRequest act). unfold Do, emit, ret, bind.
  destruct (client s (logRequest act)) as [res|err] eqn:Hc; [| right; left; eauto].
  destruct (http.Body res) as [logOutput|err] eqn:Hb; [| right; left; eauto].
  right; right. exists res, logOutput. done.
Qed.

Lemma listing_quiet :
  Forall quiet (projects rt s).1
  ∧ (∀ proj, Forall quiet (buildsForProject rt s proj).1)
  ∧ (∀ proj bld, Forall quiet (stepsForBuild rt s proj bld).1).
Proof.
  split_and!; intros.
  - destruct projects_ops as [-> | ->]; repeat constructor.
  - destruct (buildsForProject_ops proj) as [-> | ->]; repeat constructor.
  - destruct (stepsForBuild_ops proj bld) as [-> | ->]; repeat constructor.
Qed.

Lemma chunkAction_quiet proj bld act stepName :
  Forall quiet (chunkAction rt s proj bld act stepName).1.
Proof.
  destruct (chunkAction_cases proj bld act stepName)
    as [[err ->] | [[err ->] | (res & logOutput & _ & _ & ->)]];
    repeat constructor.
Qed.

End AccessorFacts.

(** ** Properties of the project task *)

Section TaskFacts.
Variable rt : Runtime.
Variable s : Source.

Lemma scanErrs_add_returns err :
  (stmt (scanErrs_add err) ;; ret (Return None))
  = ([CountAdd; ErrorsAppend err], Return None).
Proof. reflexivity. Qed.

Lemma settled_andThen m k : settled m → settled k → settled (m ;; k).
Proof.
  intros [ops Hq | ops err Hq] Hk.
  - rewrite andThen_Next. destruct Hk as [ops' Hq' | ops' err' Hq']; simpl.
    + constructor. by apply Forall_app.
    + rewrite app_assoc. constructor. by apply Forall_app.
  - rewrite andThen_Return. by constructor.
Qed.

Lemma forRange_settled {X} (xs : list X) (body : X → Go Flow) :
  (∀ x, settled (body x)) → settled (forRange xs body).
Proof.
  intros Hbody. induction xs as [|x xs IH]; simpl.
  - by constructor.
  - by apply settled_andThen.
Qed.

Lemma settled_prefix {A} (m : Go A) (k : A → Go Flow) :
  Forall quiet m.1 → (∀ a, settled (k a)) → settled (bind m k).
Proof.
  intros Hm Hk. rewrite bind_ops.
  destruct (Hk m.2) as [ops Hq | ops err Hq]; simpl.
  - constructor. by apply Forall_app.
  - rewrite app_assoc. constructor. by apply Forall_app.
Qed.

Lemma walkAction_settled proj bld stepName act :
  settled (walkAction rt s proj bld stepName act).
Proof.
  apply settled_prefix; [apply chunkAction_quiet |].
  intros [err|].
  - rewrite scanErrs_add_returns. by apply (settled_failed []).
  - by constructor.
Qed.

Lemma walkStep_settled proj bld step : settled (walkStep rt s proj bld step).
Proof. apply forRange_settled, walkAction_settled. Qed.

Lemma walkBuild_settled proj bld : settled (walkBuild rt s proj bld).
Proof.
  apply settled_prefix; [apply listing_quiet |].
  intros [buildSteps|err].
  - apply forRange_settled, walkStep_settled.
  - rewrite scanErrs_add_returns. by apply (settled_failed []).
Qed.

(** The task in terms of the named loop bodies. *)
Lemma projectTask_unfold proj :
  projectTask rt s proj
  = bind (buildsForProject rt s proj) (fun r =>
      match r with
      | Err err =>
          ([CountAdd;
            ErrorsAppend (fmt.Errorf_w ("error getting builds for project "
                                          +:+ RepoName proj +:+ ": ") err)],
           Return None)
      | Ok builds =>
          forRange builds (walkBuild rt s proj) ;; ([ScannedAdd], Return None)
      end).
Proof. reflexivity. Qed.

(** The operations of a task: requests and sends, then either the
    count of a scanned project or one recorded error, and nothing after;
    the function handed to the pool returns [nil] either way. *)
Lemma projectTask_shape proj :
  ∃ ops tail,
    projectTask rt s proj = (ops ++ tail, Return None)
    ∧ Forall quiet ops
    ∧ (tail = [ScannedAdd] ∨ ∃ err, tail = [CountAdd; ErrorsAppend err]).
Proof.
  rewrite projectTask_unfold, bind_ops.
  pose proof (proj1 (proj2 (listing_quiet rt s)) proj) as Hq.
  destruct (buildsForProject rt s proj) as [ops0 [builds|err]]; cbn [fst snd] in *.
  - generalize (forRange_settled builds _ (walkBuild_settled proj)).
    generalize (forRange builds (walkBuild rt s proj)).
    intros m [ops Hops | ops err Hops].
    + rewrite andThen_Next. cbn [fst snd].
      exists (ops0 ++ ops), [ScannedAdd]. rewrite app_assoc.
      split_and!; [done | by apply Forall_app | by left].
    + rewrite andThen_Return. cbn [fst snd].
      exists (ops0 ++ ops), [CountAdd; ErrorsAppend err]. rewrite app_assoc.
      split_and!; [done | by apply Forall_app | right; eauto].
  - exists ops0, [CountAdd; ErrorsAppend
                    (fmt.Errorf_w ("error getting builds for project "
                                     +:+ RepoName proj +:+ ": ") err)].
    split_and!; [done | done | right; eauto].
Qed.

End TaskFacts.

Section TaskFailures.
Variable rt : Runtime.
Variable s : Source.







(** Nothing fails: the task counts the project as scanned. *)
Lemma projectTask_clean proj ops0 builds ops1 :
  buildsForProject rt s proj = (ops0, Ok builds) →
  forRange builds (walkBuild rt s proj) = (ops1, Next) →
  projectTask rt s proj = (ops0 ++ ops1 ++ [ScannedAdd], Return None).
Proof.
  intros Hb Hbs. rewrite projectTask_unfold, Hb, bind_ops. cbn [fst snd].
  rewrite Hbs, andThen_Next. reflexivity.
Qed.

Lemma appends_quiet ops : Forall quiet ops → appends ops = [].
Proof.
  induction 1 as [|op ops Hq _ IH]; [done |].
  unfold appends in *. destruct op; simpl in *; done.
Qed.


Lemma forRange_Next {X} (xs : list X) (body : X → Go Flow) :
  (forRange xs body).2 = Next → ∀ x, x ∈ xs → (body x).2 = Next.
Proof.
  induction xs as [|a xs IH]; cbn [forRange].
  - intros _ x Hx. by apply elem_of_nil in Hx.
  - destruct (body a) as [ops [|r]] eqn:Ha.
    + rewrite andThen_Next. cbn [snd]. intros Hrest x Hx.
      apply elem_of_cons in Hx as [-> | Hx]; [by rewrite Ha | by apply IH].
    + rewrite andThen_Return. discriminate.
Qed.

Lemma quiet_not_scanned ops : Forall quiet ops → ScannedAdd ∉ ops.
Proof.
  intros Hq Hin. rewrite Forall_forall in Hq. by apply (Hq ScannedAdd Hin).
Qed.

Lemma settled_scanned m : settled m → ScannedAdd ∈ m.1 → False.
Proof.
  intros [ops Hq | ops err Hq]; cbn [fst].
  - by apply quiet_not_scanned.
  - rewrite elem_of_app. intros [Hin | Hin]; [by apply (quiet_not_scanned ops) |].
    apply elem_of_cons in Hin as [Hin | Hin]; [discriminate Hin |].
    apply list_elem_of_singleton in Hin. discriminate Hin.
Qed.




End TaskFailures.

(** ** Properties of the pool *)

Section PoolFacts.
Variable g : errgroup.Group.
Variable task : project → list Op.

Local Abbreviation step := (step g task).

(** With a limit of [k] active goroutines, [k] bounds the active ones
    in every state the pool reaches. *)
Lemma step_bound k p p' :
  errgroup.sem g = Some k →
  step p p' →
  Z.of_nat (length (running p)) ≤ k → Z.of_nat (length (running p')) ≤ k.
Proof.
  intros Hk Hstep. destruct Hstep as [proj td run sh Hslot | |]; simpl.
  - unfold errgroup.has_slot in Hslot. rewrite Hk in Hslot.
    rewrite length_app. simpl. lia.
  - rewrite !length_app. simpl. lia.
  - rewrite !length_app. simpl. lia.
Qed.

Lemma rtc_step_bound k p p' :
  errgroup.sem g = Some k →
  rtc step p p' →
  Z.of_nat (length (running p)) ≤ k → Z.of_nat (length (running p')) ≤ k.
Proof.
  intros Hk Hrun. induction Hrun as [|p p' p'' Hstep _ IH]; [done |].
  intros Hp. by apply IH, (step_bound k p).
Qed.

(** A task is started only while the group has a slot. *)
Lemma step_Go_needs_slot p p' :
  step p p' → (length (todo p') < length (todo p))%nat →
  errgroup.has_slot g (length (running p)).
Proof. intros [proj td run sh Hslot | |]; simpl; [done | lia | lia]. Qed.

(** Running the active goroutines one after the other empties the
    pool of them. *)
Lemma run_goroutine td ops sh :
  rtc step {| todo := td; running := [ops]; shared := sh |}
           {| todo := td; running := []; shared := foldl (fun sh op => exec op sh) sh ops |}.
Proof.
  revert sh; induction ops as [|op ops IH]; intros sh; simpl.
  - apply rtc_once. apply (step_end g task td [] [] sh).
  - eapply rtc_l; [apply (step_op g task td [] op ops [] sh) | apply IH].
Qed.

(** With a slot for a first goroutine the fan-out can be run to its
    end: one task at a time is a schedule. *)
Lemma drain_sequentially td sh :
  errgroup.has_slot g 0 →
  ∃ sh', rtc step {| todo := td; running := []; shared := sh |}
                  {| todo := []; running := []; shared := sh' |}.
Proof.
  intros Hslot. revert sh; induction td as [|proj td IH]; intros sh.
  - exists sh. done.
  - destruct (IH (foldl (fun sh op => exec op sh) sh (task proj))) as [sh' Hrun].
    exists sh'.
    eapply rtc_l; [apply (step_Go g task proj td [] sh Hslot) |].
    etrans; [apply run_goroutine | apply Hrun].
Qed.

(** With a slot for a first goroutine the pool is never stuck before
    [Wait] can return. *)
Lemma step_progress p :
  errgroup.has_slot g 0 → drained p ∨ ∃ p', step p p'.
Proof.
  intros Hslot. destruct p as [td run sh].
  destruct run as [|[|op ops] run].
  - destruct td as [|proj td]; [left; done |].
    right. eexists. by apply step_Go.
  - right. eexists. apply (step_end g task td [] run sh).
  - right. eexists. apply (step_op g task td [] op ops run sh).
Qed.

Lemma step_workload p p' : step p p' → (workload task p' < workload task p)%nat.
Proof.
  intros [proj td run sh Hslot | |]; unfold workload; simpl;
    rewrite ?sum_list_with_app; simpl; lia.
Qed.

(** Every schedule is finite. *)
Lemma step_terminates p : sn step p.
Proof.
  assert (H : ∀ n p, (workload task p < n)%nat → sn step p).
  { induction n as [|n IH]; intros q Hq; [lia |].
    constructor. intros q' Hstep. apply IH.
    apply step_workload in Hstep. lia. }
  apply (H (S (workload task p))). lia.
Qed.

End PoolFacts.

(** What the goroutines append to a list of the shared state is, when
    the pool has drained, what their tasks append, in some interleaving. *)
Section Conservation.
Variable g : errgroup.Group.
Variable task : project → list Op.
Context {X : Type} (pick : Op → option X) (field : Shared → list X).
Hypothesis exec_field :
  ∀ op sh, field (exec op sh) = field sh ++ option_list (pick op).

Lemma step_conserves p p' :
  step g task p p' →
  field (shared p') ++ pending task pick p' ≡ₚ field (shared p) ++ pending task pick p.
Proof.
  intros [proj td run sh Hslot | td run1 op ops run2 sh | td run1 run2 sh];
    unfold pending; simpl.
  - rewrite concat_app. simpl. rewrite app_nil_r, !omap_app.
    by rewrite <- !app_assoc.
  - rewrite exec_field, !concat_app, !concat_cons.
    change (op :: ops) with ([op] ++ ops). rewrite !omap_app.
    assert (Hop : omap pick [op] = option_list (pick op)).
    { simpl. by destruct (pick op). }
    rewrite Hop. destruct (pick op) as [x|]; simpl.
    + rewrite <- !app_assoc. simpl. apply Permutation_app_head.
      rewrite Permutation_middle. by rewrite <- !app_assoc.
    + by rewrite app_nil_r.
  - rewrite !concat_app. done.
Qed.

Lemma rtc_step_conserves p p' :
  rtc (step g task) p p' →
  field (shared p') ++ pending task pick p' ≡ₚ field (shared p) ++ pending task pick p.
Proof.
  induction 1 as [|p p' p'' Hstep _ IH]; [done |].
  rewrite IH. by apply step_conserves.
Qed.

Lemma drained_field p p' :
  rtc (step g task) p p' → drained p' →
  field (shared p') ≡ₚ field (shared p) ++ pending task pick p.
Proof.
  intros Hrun [Htd Hrun']. rewrite <- (rtc_step_conserves p p' Hrun).
  unfold pending. rewrite Htd, Hrun'. simpl. by rewrite app_nil_r.
Qed.

End Conservation.

(** ** The claims about [Chunks] *)

Section ChunksFacts.
Variable rt : Runtime.
Variable s : Source.

Local Abbreviation tasks := (fun proj => (projectTask rt s proj).1).

(** A pool with nothing to start and nothing active stays as it is. *)
Lemma drained_stays p p' :
  drained p → rtc (step (jobPool s) tasks) p p' → p' = p.
Proof.
  intros [Htd Hrun] Hsteps. destruct Hsteps as [|p p' p'' Hstep _]; [done |].
  destruct Hstep as [? ? ? ? ? | ? run1 ? ? ? ? | ? run1 ? ?]; simpl in *;
    [done | by destruct run1 | by destruct run1].
Qed.

(** With a slot for a first task, or with no project at all, some
    schedule takes the fan-out to the point where [Wait] returns. *)
Lemma Chunks_can_return sent projs :
  (projects rt s).2 = Ok projs →
  projs = [] ∨ errgroup.has_slot (jobPool s) 0 →
  ∃ sent', Chunks rt s sent sent' None.
Proof.
  intros Hprojs [-> | Hslot].
  - exists sent.
    apply (Chunks_waited rt s sent [] (fanOut sent []) Hprojs); [apply rtc_refl | done].
  - destruct (drain_sequentially (jobPool s) tasks projs (shared (fanOut sent projs)) Hslot)
      as [sh' Hrun].
    exists (chunksChan sh').
    by apply (Chunks_waited rt s sent projs
                {| todo := []; running := []; shared := sh' |} Hprojs).
Qed.

(** Without a slot for a first task [jobPool.Go] blocks on the first
    project: the pool never leaves the state the fan-out starts in. *)
Lemma no_slot_stays sent proj projs p :
  ¬ errgroup.has_slot (jobPool s) 0 →
  Chunks_reaches rt s sent (proj :: projs) p → p = fanOut sent (proj :: projs).
Proof.
  intros Hslot Hreach. unfold Chunks_reaches in Hreach.
  apply rtc_inv in Hreach as [<- | (p' & Hstep & _)]; [done |].
  exfalso. inversion Hstep as [? ? run ? Hgo | ? run1 ? ? ? ? Hrun | ? run1 ? ? Hrun].
  - subst. by apply Hslot.
  - by destruct run1.
  - by destruct run1.
Qed.

(** And then [Wait] is never reached: [Chunks] has no return. *)
Lemma no_slot_no_return sent proj projs sent' r :
  (projects rt s).2 = Ok (proj :: projs) →
  ¬ errgroup.has_slot (jobPool s) 0 →
  ¬ Chunks rt s sent sent' r.
Proof.
  intros Hprojs Hslot Hrun. destruct Hrun as [err Herr | projs' p Hok Hreach [Htd _]].
  - congruence.
  - assert (projs' = proj :: projs) as -> by congruence.
    by rewrite (no_slot_stays sent proj projs p Hslot Hreach) in Htd.
Qed.

End ChunksFacts.

(** C1. If the project listing fails, [Chunks] returns a non-nil error
    (the listing error, wrapped) and the output channel has received
    nothing.  If the listing succeeds, every return of [Chunks] is [nil],
    whatever fails in the project tasks, and every schedule of the pool
    is finite.  With no project to walk, or with a slot for a first task
    (a limit other than [0]), some schedule returns and no reachable
    state of the pool is stuck before [Wait] returns: [Chunks] returns
    [nil].  With a project to walk and no slot for it (a limit of [0])
    the pool never leaves the state the fan-out starts in, and [Chunks]
    has no return at all. *)
Theorem Chunks_fatal_listing_isolated_tasks
    (rt : Runtime) (s : Source) (sent : list sources.Chunk) :
  match (projects rt s).2 with
  | Err err =>
      Chunks rt s sent sent (Some (fmt.Errorf_w "error getting projects: " err))
      ∧ (∀ sent' r, Chunks rt s sent sent' r →
           sent' = sent ∧ r = Some (fmt.Errorf_w "error getting projects: " err))
  | Ok projs =>
      (∀ sent' r, Chunks rt s sent sent' r → r = None)
      ∧ (∀ p, Chunks_reaches rt s sent projs p →
           sn (step (jobPool s) (fun proj => (projectTask rt s proj).1)) p)
      ∧ (projs = [] ∨ errgroup.has_slot (jobPool s) 0 →
           (∃ sent', Chunks rt s sent sent' None)
           ∧ (∀ p, Chunks_reaches rt s sent projs p →
                drained p
                ∨ ∃ p', step (jobPool s) (fun proj => (projectTask rt s proj).1) p p'))
      ∧ (projs ≠ [] ∧ ¬ errgroup.has_slot (jobPool s) 0 →
           (∀ p, Chunks_reaches rt s sent projs p → p = fanOut sent projs)
           ∧ (∀ sent' r, ¬ Chunks rt s sent sent' r))
  end.
Proof.
  destruct (projects rt s).2 as [projs|err] eqn:Hprojs.
  - split_and!.
    + intros sent' r Hrun. destruct Hrun as [err Herr | projs' p Hok _ _]; [congruence | done].
    + intros p _. apply step_terminates.
    + intros Hcan. split; [by apply Chunks_can_return with projs |].
      intros p Hreach. destruct Hcan as [-> | Hslot].
      * left. by rewrite (drained_stays rt s (fanOut sent []) p).
      * by apply step_progress.
    + intros [Hne Hslot]. destruct projs as [|proj projs]; [done |]. split.
      * intros p Hreach. by apply (no_slot_stays rt s sent proj projs).
      * intros sent' r. by apply (no_slot_no_return rt s sent proj projs).
  - split; [by constructor |].
    intros sent' r Hrun. destruct Hrun as [err' Herr | projs p Hok _ _]; [| congruence].
    split; [done |]. congruence.
Qed.

Section Isolation.
Variable rt : Runtime.
Variable s : Source.

Lemma omap_concat {A B} (f : A → option B) (ls : list (list A)) :
  omap f (concat ls) = concat (map (omap f) ls).
Proof.
  induction ls as [|l ls IH]; [done |]. simpl. by rewrite omap_app, IH.
Qed.

(** When [Wait] returns, the channel has received the chunks of every
    task, and the aggregator holds the errors of every task, in some
    interleaving of the tasks. *)
Lemma Chunks_drained_collects sent projs p :
  Chunks_reaches rt s sent projs p → drained p →
  chunksChan (shared p)
    ≡ₚ sent ++ concat (map (fun proj => sends (projectTask rt s proj).1) projs)
  ∧ errors (scanErrs (shared p))
    ≡ₚ concat (map (fun proj => appends (projectTask rt s proj).1) projs).
Proof.
  intros Hreach Hdr. split.
  - rewrite (drained_field _ _
               (fun op => match op with ChanSend chunk => Some chunk | _ => None end)
               chunksChan) by (try done; intros [] sh; simpl; by rewrite ?app_nil_r).
    unfold pending. simpl. by rewrite omap_concat, map_map.
  - rewrite (drained_field _ _
               (fun op => match op with ErrorsAppend err => Some err | _ => None end)
               (fun sh => errors (scanErrs sh)))
      by (try done; intros [] sh; simpl; by rewrite ?app_nil_r).
    unfold pending. simpl. by rewrite omap_concat, map_map.
Qed.

End Isolation.


(** ** The claims about the requests and the chunks *)

Section Provenance.
Variable rt : Runtime.
Variable s : Source.

Lemma sends_app ops ops' : sends (ops ++ ops') = sends ops ++ sends ops'.
Proof. apply omap_app. Qed.

Lemma sends_forRange {X} (xs : list X) (body : X → Go Flow) chunk :
  chunk ∈ sends (forRange xs body).1 →
  ∃ x, x ∈ xs ∧ chunk ∈ sends (body x).1.
Proof.
  induction xs as [|x xs IH]; cbn [forRange].
  - intros Hin. by apply elem_of_nil in Hin.
  - destruct (body x) as [ops [|r]] eqn:Hx.
    + rewrite andThen_Next. cbn [fst]. rewrite sends_app, elem_of_app.
      intros [Hin | Hin].
      * exists x. rewrite Hx. split; [left | done].
      * destruct (IH Hin) as (x' & Hx' & Hin'). exists x'. split; [by right | done].
    + rewrite andThen_Return. cbn [fst]. intros Hin.
      exists x. rewrite Hx. split; [left | done].
Qed.

Lemma walkAction_sends proj bld stepName act chunk :
  chunk ∈ sends (walkAction rt s proj bld stepName act).1 →
  ∃ res logOutput,
    client s (logRequest act) = Ok res ∧ http.Body res = Ok logOutput
    ∧ chunk = chunkOf s proj bld stepName logOutput.
Proof.
  unfold walkAction.
  destruct (chunkAction_cases rt s proj bld act stepName)
    as [[err ->] | [[err ->] | (res & logOutput & Hc & Hb & ->)]]; simpl.
  - intros Hin. by apply elem_of_nil in Hin.
  - intros Hin. by apply elem_of_nil in Hin.
  - intros Hin. apply list_elem_of_singleton in Hin. eauto.
Qed.

Lemma walkBuild_sends proj bld chunk :
  chunk ∈ sends (walkBuild rt s proj bld).1 →
  ∃ buildSteps step act res logOutput,
    (stepsForBuild rt s proj bld).2 = Ok buildSteps
    ∧ step ∈ buildSteps ∧ act ∈ Actions step
    ∧ client s (logRequest act) = Ok res ∧ http.Body res = Ok logOutput
    ∧ chunk = chunkOf s proj bld (Name step) logOutput.
Proof.
  unfold walkBuild. rewrite bind_ops. cbn [fst]. rewrite sends_app, elem_of_app.
  intros [Hin | Hin].
  - destruct (stepsForBuild_ops rt s proj bld) as [Heq | Heq];
      rewrite Heq in Hin; by apply elem_of_nil in Hin.
  - destruct (stepsForBuild rt s proj bld).2 as [buildSteps|err]; cbn [fst snd] in Hin.
    + apply sends_forRange in Hin as (step & Hstep & Hin).
      apply sends_forRange in Hin as (act & Hact & Hin).
      apply walkAction_sends in Hin as (res & logOutput & Hc & Hb & ->).
      exists buildSteps, step, act, res, logOutput. done.
    + by apply elem_of_nil in Hin.
Qed.

(** Every chunk a task sends was built from the task's project, a
    build of its build listing, a step of that build's step listing and
    the body fetched for an action of that step. *)
Lemma projectTask_sends proj chunk :
  chunk ∈ sends (projectTask rt s proj).1 →
  ∃ builds bld buildSteps step act res logOutput,
    (buildsForProject rt s proj).2 = Ok builds ∧ bld ∈ builds
    ∧ (stepsForBuild rt s proj bld).2 = Ok buildSteps
    ∧ step ∈ buildSteps ∧ act ∈ Actions step
    ∧ client s (logRequest act) = Ok res ∧ http.Body res = Ok logOutput
    ∧ chunk = chunkOf s proj bld (Name step) logOutput.
Proof.
  rewrite projectTask_unfold, bind_ops. cbn [fst]. rewrite sends_app, elem_of_app.
  intros [Hin | Hin].
  - destruct (buildsForProject_ops rt s proj) as [Heq | Heq];
      rewrite Heq in Hin; by apply elem_of_nil in Hin.
  - destruct (buildsForProject rt s proj).2 as [builds|err]; cbn [fst snd] in Hin.
    + assert (Hin' : chunk ∈ sends (forRange builds (walkBuild rt s proj)).1).
      { destruct (forRange builds (walkBuild rt s proj)) as [ops [|r]].
        - rewrite andThen_Next in Hin. cbn [fst] in *.
          rewrite sends_app, elem_of_app in Hin. destruct Hin as [Hin | Hin]; [done |].
          by apply elem_of_nil in Hin.
        - by rewrite andThen_Return in Hin. }
      apply sends_forRange in Hin' as (bld & Hbld & Hin').
      apply walkBuild_sends in Hin'
        as (buildSteps & step & act & res & logOutput & Hst & Hstep & Hact & Hc & Hb & ->).
      exists builds, bld, buildSteps, step, act, res, logOutput. done.
    + by apply elem_of_nil in Hin.
Qed.

Lemma elem_of_concat_map {A B} (f : A → list B) (l : list A) (b : B) :
  b ∈ concat (map f l) → ∃ a, a ∈ l ∧ b ∈ f a.
Proof.
  induction l as [|a l IH]; simpl.
  - intros Hin. by apply elem_of_nil in Hin.
  - rewrite elem_of_app. intros [Hin | Hin].
    + exists a. split; [left | done].
    + destruct (IH Hin) as (a' & Ha' & Hin'). exists a'. split; [by right | done].
Qed.

(** Whatever the channel holds in a state [Chunks] reaches was there
    before or was sent by the task of one of the listed projects. *)
Lemma Chunks_reaches_sent sent projs p chunk :
  Chunks_reaches rt s sent projs p →
  chunk ∈ chunksChan (shared p) →
  chunk ∈ sent ∨ ∃ proj, proj ∈ projs ∧ chunk ∈ sends (projectTask rt s proj).1.
Proof.
  intros Hreach Hin.
  pose proof (rtc_step_conserves (jobPool s) (fun proj => (projectTask rt s proj).1)
                (fun op => match op with ChanSend chunk => Some chunk | _ => None end)
                chunksChan) as Hcons.
  specialize (Hcons ltac:(intros [] sh; simpl; by rewrite ?app_nil_r) _ _ Hreach).
  assert (Hin' : chunk ∈ chunksChan (shared p)
                   ++ pending (fun proj => (projectTask rt s proj).1)
                        (fun op => match op with ChanSend chunk => Some chunk | _ => None end) p).
  { apply elem_of_app. by left. }
  rewrite Hcons in Hin'. unfold pending in Hin'. simpl in Hin'.
  apply elem_of_app in Hin' as [Hin' | Hin']; [by left | right].
  rewrite omap_concat, map_map in Hin'.
  by apply elem_of_concat_map in Hin'.
Qed.

End Provenance.

(** C4, as the code has it.  Every request of the three listing calls
    carries the credential header [Circle-Token] with the stored token and
    the header [Accept: application/json].  The log fetch of [chunkAction]
    is a bare [GET] of the action's output URL: it sets no header. *)
Theorem listing_requests_carry_headers (rt : Runtime) (s : Source) :
  (∀ req, HttpDo req ∈ (projects rt s).1 →
     http.Header req !! "Circle-Token" = Some [token s]
     ∧ http.Header req !! "Accept" = Some ["application/json"])
  ∧ (∀ proj req, HttpDo req ∈ (buildsForProject rt s proj).1 →
       http.Header req !! "Circle-Token" = Some [token s]
       ∧ http.Header req !! "Accept" = Some ["application/json"])
  ∧ (∀ proj bld req, HttpDo req ∈ (stepsForBuild rt s proj bld).1 →
       http.Header req !! "Circle-Token" = Some [token s]
       ∧ http.Header req !! "Accept" = Some ["application/json"])
  ∧ (∀ proj bld act stepName req,
       HttpDo req ∈ (chunkAction rt s proj bld act stepName).1 →
       http.Method req = "GET" ∧ http.URL req = OutputURL act
       ∧ http.Header req = ∅).
Proof.
  assert (Hlisting : ∀ url,
            http.Header (listingRequest s url) !! "Circle-Token" = Some [token s]
            ∧ http.Header (listingRequest s url) !! "Accept" = Some ["application/json"]).
  { intros url. unfold listingRequest, http.Header_Set. simpl. split.
    - rewrite lookup_insert_ne by done. apply lookup_insert_eq.
    - apply lookup_insert_eq. }
  split_and!.
  - intros req Hin. destruct (projects_ops rt s) as [Heq | Heq]; rewrite Heq in Hin.
    + by apply elem_of_nil in Hin.
    + apply list_elem_of_singleton in Hin. injection Hin as ->. apply Hlisting.
  - intros proj req Hin.
    destruct (buildsForProject_ops rt s proj) as [Heq | Heq]; rewrite Heq in Hin.
    + by apply elem_of_nil in Hin.
    + apply list_elem_of_singleton in Hin. injection Hin as ->. apply Hlisting.
  - intros proj bld req Hin.
    destruct (stepsForBuild_ops rt s proj bld) as [Heq | Heq]; rewrite Heq in Hin.
    + by apply elem_of_nil in Hin.
    + apply list_elem_of_singleton in Hin. injection Hin as ->. apply Hlisting.
  - intros proj bld act stepName req Hin.
    destruct (chunkAction_cases rt s proj bld act stepName)
      as [[err Heq] | [[err Heq] | (res & logOutput & _ & _ & Heq)]];
      rewrite Heq in Hin; cbn [fst] in Hin.
    + by apply elem_of_nil in Hin.
    + apply list_elem_of_singleton in Hin. injection Hin as ->. done.
    + apply elem_of_cons in Hin as [Hin | Hin].
      * injection Hin as ->. done.
      * apply list_elem_of_singleton in Hin. discriminate Hin.
Qed.

(** C4, as the specification has it, fails on the log fetch: the request
    [chunkAction] issues for the action of the examples carries neither
    header. *)
Lemma chunkAction_request_bare :
  ∃ req chunk,
    (chunkAction (Demo.rt Demo.remote) Demo.src Demo.api {| BuildNum := 42 |}
                 Demo.apiLog "test").1
    = [HttpDo req; ChanSend chunk]
    ∧ http.Header req !! "Circle-Token" = None
    ∧ http.Header req !! "Accept" = None.
Proof.
  exists (logRequest Demo.apiLog),
         (chunkOf Demo.src Demo.api {| BuildNum := 42 |} "test" Demo.apiBody).
  split; [vm_compute; reflexivity |].
  split; apply lookup_empty.
Qed.

(** C5 at work.  Against a remote that answers every call with status
    [401] and an empty JSON object, the project listing fails with the
    credentials error; the build listing fails too, but with the decoder's
    error; the step listing succeeds with no step.  Neither of the two
    looks at the status. *)
Theorem listings_ignore_client_error_status :
  (projects (Demo.rt Demo.rejecting) Demo.rejected).2
  = Err (errorString "invalid credentials, status 401")
  ∧ (buildsForProject (Demo.rt Demo.rejecting) Demo.rejected Demo.api).2
    = Err Demo.typeError
  ∧ (stepsForBuild (Demo.rt Demo.rejecting) Demo.rejected Demo.api {| BuildNum := 42 |}).2
    = Ok []
  ∧ (∀ rt s proj res,
       url_Parse rt (buildsURL proj) = None →
       client s (listingRequest s (buildsURL proj)) = Ok res →
       (buildsForProject rt s proj).2
       = match http.Body res with
         | Err err => Err err
         | Ok body => json_Decode_builds rt body
         end)
  ∧ (∀ rt s proj bld res,
       url_Parse rt (stepsURL proj bld) = None →
       client s (listingRequest s (stepsURL proj bld)) = Ok res →
       (stepsForBuild rt s proj bld).2
       = match http.Body res with
         | Err err => Err err
         | Ok body => json_Decode_buildRes rt body
         end).
Proof.
  split_and!; [vm_compute; reflexivity .. | |].
  - intros rt s proj res Hurl Hc.
    unfold buildsForProject, http_NewRequest. fold (buildsURL proj). rewrite Hurl.
    fold (listingRequest s (buildsURL proj)).
    unfold Do. rewrite !bind_ops. cbn [fst snd emit ret]. rewrite Hc.
    by destruct (http.Body res).
  - intros rt s proj bld res Hurl Hc.
    unfold stepsForBuild, http_NewRequest. fold (stepsURL proj bld). rewrite Hurl.
    fold (listingRequest s (stepsURL proj bld)).
    unfold Do. rewrite !bind_ops. cbn [fst snd emit ret]. rewrite Hc.
    by destruct (http.Body res).
Qed.

(** C6. Every chunk [chunkAction] sends carries the provenance of the
    project, build and step it was called with, every field set, and its
    link is [https://app.circleci.com/pipelines/] followed by the vcs
    type, the account, the repository and the build number, separated by
    slashes; a successful fetch sends exactly that chunk.  In a run of
    [Chunks] every chunk the channel receives was built that way from a
    listed project, a build of its build listing and a step of that
    build's step listing. *)
Theorem chunkAction_provenance_complete (rt : Runtime) (s : Source) :
  (∀ proj bld act stepName chunk,
     ChanSend chunk ∈ (chunkAction rt s proj bld act stepName).1 →
     sources.SourceMetadata chunk
     = source_metadatapb.MetaData_Circleci
         {| source_metadatapb.VcsType := VCS proj;
            source_metadatapb.Username := Username proj;
            source_metadatapb.Repository := RepoName proj;
            source_metadatapb.BuildNumber := BuildNum bld;
            source_metadatapb.BuildStep := stepName;
            source_metadatapb.Link :=
              "https://app.circleci.com/pipelines/" +:+ VCS proj +:+ "/"
                +:+ Username proj +:+ "/" +:+ RepoName proj +:+ "/"
                +:+ fmt.d (BuildNum bld) |})
  ∧ (∀ proj bld act stepName res logOutput,
       url_Parse rt (OutputURL act) = None →
       client s (logRequest act) = Ok res →
       http.Body res = Ok logOutput →
       chunkAction rt s proj bld act stepName
       = ([HttpDo (logRequest act);
           ChanSend (chunkOf s proj bld stepName logOutput)], None))
  ∧ (∀ sent projs p chunk,
       Chunks_reaches rt s sent projs p →
       chunk ∈ chunksChan (shared p) →
       chunk ∈ sent
       ∨ ∃ proj builds bld buildSteps step,
           proj ∈ projs
           ∧ (buildsForProject rt s proj).2 = Ok builds ∧ bld ∈ builds
           ∧ (stepsForBuild rt s proj bld).2 = Ok buildSteps ∧ step ∈ buildSteps
           ∧ sources.SourceMetadata chunk
             = source_metadatapb.MetaData_Circleci
                 {| source_metadatapb.VcsType := VCS proj;
                    source_metadatapb.Username := Username proj;
                    source_metadatapb.Repository := RepoName proj;
                    source_metadatapb.BuildNumber := BuildNum bld;
                    source_metadatapb.BuildStep := Name step;
                    source_metadatapb.Link :=
                      "https://app.circleci.com/pipelines/" +:+ VCS proj +:+ "/"
                        +:+ Username proj +:+ "/" +:+ RepoName proj +:+ "/"
                        +:+ fmt.d (BuildNum bld) |}).
Proof.
  split_and!.
  - intros proj bld act stepName chunk Hin.
    destruct (chunkAction_cases rt s proj bld act stepName)
      as [[err Heq] | [[err Heq] | (res & logOutput & _ & _ & Heq)]];
      rewrite Heq in Hin; cbn [fst] in Hin.
    + by apply elem_of_nil in Hin.
    + apply list_elem_of_singleton in Hin. discriminate Hin.
    + apply elem_of_cons in Hin as [Hin | Hin]; [discriminate Hin |].
      apply list_elem_of_singleton in Hin. injection Hin as ->. reflexivity.
  - intros proj bld act stepName res logOutput Hurl Hc Hb.
    unfold chunkAction, http_NewRequest. rewrite Hurl. fold (logRequest act).
    unfold Do, emit, ret, bind. rewrite Hc, Hb. reflexivity.
  - intros sent projs p chunk Hreach Hin.
    destruct (Chunks_reaches_sent rt s sent projs p chunk Hreach Hin)
      as [Hsent | (proj & Hproj & Hsends)]; [by left | right].
    apply projectTask_sends in Hsends
      as (builds & bld & buildSteps & step & act & res & logOutput
          & Hb & Hbld & Hst & Hstep & _ & _ & _ & ->).
    exists proj, builds, bld, buildSteps, step. done.
Qed.

(** C8. After [Init] with a limit [k] that is not negative, no state a
    run of [Chunks] reaches has more than [k] project tasks active, and a
    further task is started only from a state with fewer than [k] active:
    until then its submission waits. *)
Theorem jobPool_bounds_active_tasks (rt : Runtime) (s0 : Source) (name' : string)
    (jobId' sourceId' : Z) (verify' : bool) (connection : anypb.Any) (k : Z)
    (sent : list sources.Chunk) (projs : list project) (p : Pool) :
  0 ≤ k →
  Chunks_reaches rt (Init rt s0 name' jobId' sourceId' verify' connection k).1
                 sent projs p →
  Z.of_nat (length (running p)) ≤ k
  ∧ (∀ p',
       step (jobPool (Init rt s0 name' jobId' sourceId' verify' connection k).1)
            (fun proj =>
               (projectTask rt (Init rt s0 name' jobId' sourceId' verify' connection k).1
                            proj).1)
            p p' →
       (length (todo p') < length (todo p))%nat →
       Z.of_nat (length (running p)) < k).
Proof.
  intros Hk Hreach.
  set (s := (Init rt s0 name' jobId' sourceId' verify' connection k).1) in *.
  assert (Hsem : errgroup.sem (jobPool s) = Some k).
  { subst s. unfold Init.
    assert (Hlim : errgroup.sem (errgroup.SetLimit errgroup.zero k) = Some k).
    { unfold errgroup.SetLimit. destruct (Z.ltb_spec k 0); [lia | done]. }
    destruct (anypb_UnmarshalTo rt connection) as [conn|err]; [| exact Hlim].
    destruct (sourcespb.Credential conn) as [[t|tag]|]; exact Hlim. }
  split.
  - apply (rtc_step_bound _ _ k _ _ Hsem Hreach). simpl. lia.
  - intros p' Hstep Hless.
    pose proof (step_Go_needs_slot _ _ _ _ Hstep Hless) as Hslot.
    unfold errgroup.has_slot in Hslot. by rewrite Hsem in Hslot.
Qed.

(** ** The claims about the aggregator and about [Init] *)

(** A sequence of [add] calls appends its errors in order and advances
    the counter by their number, modulo [2^64]. *)
Lemma fold_add_all (errs : list error) (s0 : scanErrors) :
  0 ≤ count s0 < 2 ^ 64 →
  errors (fold_left add errs s0) = errors s0 ++ errs
  ∧ count (fold_left add errs s0) = (count s0 + Z.of_nat (length errs)) mod 2 ^ 64.
Proof.
  revert s0; induction errs as [|e errs IH]; intros s0 Hs0; simpl.
  - rewrite app_nil_r, Z.add_0_r, Z.mod_small by done. done.
  - destruct (IH (add s0 e)) as [He Hc].
    { simpl. unfold atomic_AddUint64. apply Z.mod_pos_bound. lia. }
    rewrite He, Hc. simpl. split; [by rewrite <- app_assoc |].
    unfold atomic_AddUint64. rewrite Z.add_mod_idemp_l by lia.
    f_equal. lia.
Qed.

(** [scanErrs.add] as the goroutine performs it is [add] on the shared
    aggregator. *)
Lemma exec_scanErrs_add (sh : Shared) (err : error) :
  foldl (fun sh op => exec op sh) sh (scanErrs_add err).1
  = {| chunksChan := chunksChan sh; scanErrs := add (scanErrs sh) err;
       scanned := scanned sh |}.
Proof. reflexivity. Qed.

Section PoolCount.
Variable g : errgroup.Group.
Variable task : project → list Op.

Local Abbreviation tick := (fun op => match op with CountAdd => Some tt | _ => None end).

(** The counter plus the increments still to come is the same, modulo
    [2^64], before and after a step. *)
Lemma step_counts p p' :
  step g task p p' →
  0 ≤ count (scanErrs (shared p)) < 2 ^ 64 →
  0 ≤ count (scanErrs (shared p')) < 2 ^ 64
  ∧ (count (scanErrs (shared p')) + Z.of_nat (length (pending task tick p'))) mod 2 ^ 64
    = (count (scanErrs (shared p)) + Z.of_nat (length (pending task tick p))) mod 2 ^ 64.
Proof.
  intros [proj td run sh Hslot | td run1 op ops run2 sh | td run1 run2 sh] Hc;
    unfold pending; cbn [shared running todo map] in *.
  - split; [done |]. rewrite !concat_app. cbn [concat].
    rewrite app_nil_r, !omap_app, !length_app. f_equal. lia.
  - rewrite !concat_app, !concat_cons.
    change (op :: ops) with ([op] ++ ops). rewrite !omap_app, !length_app.
    destruct op; cbn [exec scanErrs count add_count add_append omap length];
      try (split; [done | f_equal; simpl; lia]).
    split; [unfold atomic_AddUint64; apply Z.mod_pos_bound; lia |].
    unfold atomic_AddUint64. rewrite Z.add_mod_idemp_l by lia.
    f_equal. simpl. lia.
  - split; [done |]. rewrite !concat_app. cbn [concat app]. done.
Qed.

Lemma rtc_step_counts p p' :
  rtc (step g task) p p' →
  0 ≤ count (scanErrs (shared p)) < 2 ^ 64 →
  0 ≤ count (scanErrs (shared p')) < 2 ^ 64
  ∧ (count (scanErrs (shared p')) + Z.of_nat (length (pending task tick p'))) mod 2 ^ 64
    = (count (scanErrs (shared p)) + Z.of_nat (length (pending task tick p))) mod 2 ^ 64.
Proof.
  induction 1 as [|p p' p'' Hstep _ IH]; [done |].
  intros Hc. destruct (step_counts p p' Hstep Hc) as [Hc' Heq].
  destruct (IH Hc') as [Hc'' Heq']. split; [done |]. by rewrite Heq'.
Qed.

End PoolCount.

Lemma length_concat_map {A B C} (f : A → list B) (h : A → list C) (l : list A) :
  (∀ a, length (f a) = length (h a)) →
  length (concat (map f l)) = length (concat (map h l)).
Proof.
  intros Hfh. induction l as [|a l IH]; [done |].
  simpl. by rewrite !length_app, Hfh, IH.
Qed.

(** A task increments the counter as often as it appends an error. *)
Lemma projectTask_counts rt s proj :
  length (counts (projectTask rt s proj).1) = length (appends (projectTask rt s proj).1).
Proof.
  destruct (projectTask_shape rt s proj) as (ops & tail & -> & Hq & Htail).
  cbn [fst]. unfold counts, appends. rewrite !omap_app, !length_app.
  assert (Hops : omap (fun op => match op with CountAdd => Some tt | _ => None end) ops = []
                 ∧ omap (fun op => match op with ErrorsAppend err => Some err | _ => None end)
                        ops = []).
  { clear Htail. induction Hq as [|op ops Hop _ [IH1 IH2]]; [done |].
    destruct op; simpl in *; done. }
  destruct Hops as [-> ->]. by destruct Htail as [-> | [err ->]].
Qed.

(** When [Wait] returns, the counter of the aggregator is the length of
    its slice (modulo [2^64], which a Go slice does not reach). *)
Lemma Chunks_drained_count rt s sent projs p :
  Chunks_reaches rt s sent projs p → drained p →
  count (scanErrs (shared p))
  = Z.of_nat (length (errors (scanErrs (shared p)))) mod 2 ^ 64.
Proof.
  intros Hreach Hdr.
  destruct (rtc_step_counts _ _ _ _ Hreach) as [Hc Heq]; [simpl; lia |].
  destruct (Chunks_drained_collects rt s sent projs p Hreach Hdr) as [_ Herr].
  rewrite Herr. destruct Hdr as [Htd Hrun].
  unfold pending in Heq. rewrite Htd, Hrun in Heq. simpl in Heq.
  rewrite Z.add_0_r, (Z.mod_small _ _ Hc) in Heq. rewrite Heq, Z.add_0_l.
  f_equal. f_equal.
  rewrite omap_concat, map_map.
  apply length_concat_map. intros proj. apply projectTask_counts.
Qed.

(** C9. Starting from [newScanErrors], after any sequence of [add] calls
    the slice holds exactly the added errors in the order added, and the
    counter equals its length (the counter is a [uint64]; a Go slice is
    shorter than [2^64]).  The same holds of the aggregator of a run of
    [Chunks] when [Wait] returns, whatever the interleaving of the two
    steps of the tasks' [add] calls: the slice holds the tasks' errors,
    each once, and the counter is its length. *)
Theorem scanErrors_count_is_length :
  (∀ (projects : nat) (errs : list error),
     Z.of_nat (length errs) < 2 ^ 64 →
     errors (fold_left add errs (newScanErrors projects)) = errs
     ∧ count (fold_left add errs (newScanErrors projects))
       = Z.of_nat (length (errors (fold_left add errs (newScanErrors projects)))))
  ∧ (∀ rt s sent projs p,
       Chunks_reaches rt s sent projs p → drained p →
       Z.of_nat (length (errors (scanErrs (shared p)))) < 2 ^ 64 →
       errors (scanErrs (shared p))
         ≡ₚ concat (map (fun proj => appends (projectTask rt s proj).1) projs)
       ∧ count (scanErrs (shared p)) = Z.of_nat (length (errors (scanErrs (shared p))))).
Proof.
  split.
  - intros projects errs Hlen.
    destruct (fold_add_all errs (newScanErrors projects)) as [He Hc]; [simpl; lia |].
    rewrite He, Hc. simpl. split; [done |].
    apply Z.mod_small. lia.
  - intros rt s sent projs p Hreach Hdr Hlen. split.
    + by destruct (Chunks_drained_collects rt s sent projs p Hreach Hdr).
    + rewrite (Chunks_drained_count rt s sent projs p Hreach Hdr).
      apply Z.mod_small. lia.
Qed.

(** C10. When the connection unmarshals and its credential is not a
    token credential, [Init] returns [nil] and leaves the stored token as
    it was: empty for a source that had none. *)
Theorem Init_without_token_credential (rt : Runtime) (s : Source) (name' : string)
    (jobId' sourceId' : Z) (verify' : bool) (connection : anypb.Any)
    (concurrency : Z) (conn : sourcespb.CircleCI) :
  anypb_UnmarshalTo rt connection = Ok conn →
  (∀ t, sourcespb.Credential conn ≠ Some (sourcespb.CircleCI_Token t)) →
  (Init rt s name' jobId' sourceId' verify' connection concurrency).2 = None
  ∧ token (Init rt s name' jobId' sourceId' verify' connection concurrency).1 = token s
  ∧ (token s = "" →
     token (Init rt s name' jobId' sourceId' verify' connection concurrency).1 = "").
Proof.
  intros Hconn Hcred. unfold Init. rewrite Hconn.
  destruct (sourcespb.Credential conn) as [[t|tag]|] eqn:E.
  - by destruct (Hcred t).
  - simpl. done.
  - simpl. done.
Qed.

(** ** The claims at the remote of the examples *)

(** C1 at the remote of the examples: rejected, [Chunks] returns the
    wrapped listing error on an untouched channel; accepted, with three of
    five projects failing and a limit of two tasks, some schedule returns
    [nil]. *)
Lemma Chunks_fatal_listing_isolated_tasks_witness :
  Chunks (Demo.rt Demo.rejecting) Demo.rejected [] []
         (Some (wrapError "error getting projects: invalid credentials, status 401"
                          (errorString "invalid credentials, status 401")))
  ∧ ∃ sent', Chunks (Demo.rt Demo.remote) Demo.src [] sent' None.
Proof.
  split.
  - generalize (Chunks_fatal_listing_isolated_tasks (Demo.rt Demo.rejecting) Demo.rejected []).
    assert (E : (projects (Demo.rt Demo.rejecting) Demo.rejected).2
                = Err (errorString "invalid credentials, status 401"))
      by (vm_compute; reflexivity).
    rewrite E. intros [H _]. exact H.
  - generalize (Chunks_fatal_listing_isolated_tasks (Demo.rt Demo.remote) Demo.src []).
    assert (E : (projects (Demo.rt Demo.remote) Demo.src).2
                = Ok [Demo.api; Demo.web; Demo.cli; Demo.ops; Demo.doc])
      by (vm_compute; reflexivity).
    rewrite E. intros (_ & _ & H & _). apply H. right. vm_compute. reflexivity.
Defined.

(** C1, as the specification has it, fails at a limit of [0], which
    [Init] accepts like any other: against the remote of the examples the
    project listing succeeds with its five projects, and [Chunks] returns
    neither [nil] nor anything else, on whatever channel. *)
Lemma Chunks_limit_zero_listing_ok_no_return :
  (projects (Demo.rt Demo.remote)
            (Init (Demo.rt Demo.remote) Demo.fresh "circleci" 1 2 true Demo.withToken 0).1).2
  = Ok [Demo.api; Demo.web; Demo.cli; Demo.ops; Demo.doc]
  ∧ errgroup.sem
      (jobPool (Init (Demo.rt Demo.remote) Demo.fresh "circleci" 1 2 true Demo.withToken 0).1)
    = Some 0
  ∧ (∀ sent sent' r,
       ¬ Chunks (Demo.rt Demo.remote)
                (Init (Demo.rt Demo.remote) Demo.fresh "circleci" 1 2 true Demo.withToken 0).1
                sent sent' r).
Proof.
  split; [vm_compute; reflexivity |]. split; [vm_compute; reflexivity |].
  intros sent sent' r.
  apply (no_slot_no_return (Demo.rt Demo.remote) _ sent Demo.api
           [Demo.web; Demo.cli; Demo.ops; Demo.doc]).
  - vm_compute. reflexivity.
  - vm_compute. intros H. discriminate H.
Qed.


(** C4 at the remote of the examples: the request of the project listing
    carries both headers. *)
Lemma listing_requests_carry_headers_witness :
  http.Header (listingRequest Demo.src projectsURL) !! "Circle-Token" = Some ["secret"]
  ∧ http.Header (listingRequest Demo.src projectsURL) !! "Accept"
    = Some ["application/json"].
Proof.
  apply (proj1 (listing_requests_carry_headers (Demo.rt Demo.remote) Demo.src)
           (listingRequest Demo.src projectsURL)).
  vm_compute. left.
Defined.

(** C6 at the remote of the examples: the chunk of the action of project
    [api], build [42], step [test]. *)
Lemma chunkAction_provenance_complete_witness :
  chunkAction (Demo.rt Demo.remote) Demo.src Demo.api {| BuildNum := 42 |}
              Demo.apiLog "test"
  = ([HttpDo (logRequest Demo.apiLog); ChanSend Demo.apiChunk], None)
  ∧ sources.SourceMetadata Demo.apiChunk
    = source_metadatapb.MetaData_Circleci
        {| source_metadatapb.VcsType := "github";
           source_metadatapb.Username := "acme";
           source_metadatapb.Repository := "api";
           source_metadatapb.BuildNumber := 42;
           source_metadatapb.BuildStep := "test";
           source_metadatapb.Link := "https://app.circleci.com/pipelines/github/acme/api/42" |}.
Proof.
  destruct (chunkAction_provenance_complete (Demo.rt Demo.remote) Demo.src)
    as (Hmeta & Hsend & _).
  split.
  - apply (Hsend Demo.api {| BuildNum := 42 |} Demo.apiLog "test"
             {| http.StatusCode := 200; http.Body := Ok Demo.apiBody |} Demo.apiBody);
      vm_compute; reflexivity.
  - apply (Hmeta Demo.api {| BuildNum := 42 |} Demo.apiLog "test" Demo.apiChunk).
    vm_compute. right. left.
Defined.

(** C8 at the remote of the examples: two tasks active under a limit of
    two, and no third can be started from there. *)
Lemma jobPool_bounds_active_tasks_witness :
  Z.of_nat (length (running Demo.twoActive)) ≤ 2
  ∧ (∀ p',
       step (jobPool Demo.src)
            (fun proj => (projectTask (Demo.rt Demo.remote) Demo.src proj).1)
            Demo.twoActive p' →
       (length (todo p') < length (todo Demo.twoActive))%nat →
       Z.of_nat (length (running Demo.twoActive)) < 2).
Proof.
  apply (jobPool_bounds_active_tasks (Demo.rt Demo.remote) Demo.fresh "circleci"
           1 2 true Demo.withToken 2 [] [Demo.api; Demo.web; Demo.cli; Demo.ops; Demo.doc]
           Demo.twoActive).
  - lia.
  - unfold Chunks_reaches.
    eapply rtc_l.
    { apply (step_Go _ _ Demo.api [Demo.web; Demo.cli; Demo.ops; Demo.doc] []).
      vm_compute. reflexivity. }
    eapply rtc_l.
    { apply (step_Go _ _ Demo.web [Demo.cli; Demo.ops; Demo.doc]). vm_compute. reflexivity. }
    apply rtc_refl.
Defined.

(** C9 on two errors. *)
Lemma scanErrors_count_is_length_witness :
  errors (fold_left add [Demo.refused; Demo.syntaxError] (newScanErrors 3))
  = [Demo.refused; Demo.syntaxError]
  ∧ count (fold_left add [Demo.refused; Demo.syntaxError] (newScanErrors 3))
    = Z.of_nat (length (errors (fold_left add [Demo.refused; Demo.syntaxError]
                                          (newScanErrors 3)))).
Proof.
  apply (proj1 scanErrors_count_is_length 3%nat [Demo.refused; Demo.syntaxError]).
  vm_compute. reflexivity.
Defined.

(** C10 on a connection without a credential. *)
Lemma Init_without_token_credential_witness :
  (Init (Demo.rt Demo.remote) Demo.fresh "circleci" 1 2 true Demo.withoutCredential 2).2
  = None
  ∧ token (Init (Demo.rt Demo.remote) Demo.fresh "circleci" 1 2 true
                Demo.withoutCredential 2).1
    = token Demo.fresh
  ∧ (token Demo.fresh = "" →
     token (Init (Demo.rt Demo.remote) Demo.fresh "circleci" 1 2 true
                 Demo.withoutCredential 2).1 = "").
Proof.
  apply (Init_without_token_credential (Demo.rt Demo.remote) Demo.fresh "circleci"
           1 2 true Demo.withoutCredential 2 {| sourcespb.Credential := None |}).
  - vm_compute. reflexivity.
  - intros t. discriminate.
Defined.

(** ** The remote of the examples at work *)

Section DemoFacts.
Import Demo.

Example demo_sanitize :
  removeCircleSha1Line apiBody = B "line1" ++ [newline] ++ B "line3".
Proof. vm_compute. reflexivity. Qed.

Example demo_sanitize_edges :
  removeCircleSha1Line (B "CIRCLE_SHA1=abcd") = []
  ∧ removeCircleSha1Line (B "CIRCLE_SHA1=abcd" ++ [newline]) = []
  ∧ removeCircleSha1Line ([newline] ++ B "xCIRCLE_SHA1=" ++ [newline]) = [newline]
  ∧ removeCircleSha1Line ([newline] ++ B "a" ++ [newline]) = [newline] ++ B "a" ++ [newline].
Proof. vm_compute. done. Qed.

Example demo_Split :
  bytes.Split (B "a" ++ [newline; newline] ++ B "b" ++ [newline]) [newline]
  = [B "a"; []; B "b"; []]
  ∧ bytes.Split [] [newline] = [[]]
  ∧ bytes.Join [B "a"; []; B "b"; []] [newline]
    = B "a" ++ [newline; newline] ++ B "b" ++ [newline]
  ∧ bytes.Contains (B "export CIRCLE_SHA1=abcd") circleSha1 = true
  ∧ bytes.Contains (B "CIRCLE_SHA1 =abcd") circleSha1 = false.
Proof. vm_compute. done. Qed.

Example demo_Init : token src = "secret" ∧ errgroup.sem (jobPool src) = Some 2.
Proof. vm_compute. done. Qed.

Example demo_projects :
  projects (rt remote) src
  = ([HttpDo (listingRequest src projectsURL)], Ok [api; web; cli; ops; doc]).
Proof. vm_compute. reflexivity. Qed.

Example demo_chunkAction :
  chunkAction (rt remote) src api {| BuildNum := 42 |} apiLog "test"
  = ([HttpDo (logRequest apiLog); ChanSend apiChunk], None).
Proof. vm_compute. reflexivity. Qed.

Example demo_task_api :
  projectTask (rt remote) src api
  = ([HttpDo (listingRequest src (buildsURL api));
      HttpDo (listingRequest src (stepsURL api {| BuildNum := 42 |}));
      HttpDo (logRequest apiLog); ChanSend apiChunk; ScannedAdd],
     Return None).
Proof. vm_compute. reflexivity. Qed.

(** The build listing fails: one request, one error. *)
Example demo_task_web :
  projectTask (rt remote) src web
  = ([HttpDo (listingRequest src (buildsURL web)); CountAdd; ErrorsAppend webError],
     Return None).
Proof. vm_compute. reflexivity. Qed.

Example demo_task_cli :
  projectTask (rt remote) src cli
  = ([HttpDo (listingRequest src (buildsURL cli));
      HttpDo (listingRequest src (stepsURL cli {| BuildNum := 7 |}));
      HttpDo (logRequest cliLog); ChanSend cliChunk; ScannedAdd],
     Return None).
Proof. vm_compute. reflexivity. Qed.

(** A log fetch fails: the third action of the step, the second step
    and the second build are never asked for. *)
Example demo_task_ops :
  projectTask (rt remote) src ops
  = ([HttpDo (listingRequest src (buildsURL ops));
      HttpDo (listingRequest src (stepsURL ops {| BuildNum := 1 |}));
      HttpDo (logRequest opsLog); ChanSend opsChunk;
      HttpDo (logRequest lostLog); CountAdd; ErrorsAppend opsError],
     Return None).
Proof. vm_compute. reflexivity. Qed.

(** A step listing fails at the second build: the third is never asked
    for. *)
Example demo_task_doc :
  projectTask (rt remote) src doc
  = ([HttpDo (listingRequest src (buildsURL doc));
      HttpDo (listingRequest src (stepsURL doc {| BuildNum := 3 |}));
      HttpDo (logRequest docLog); ChanSend docChunk;
      HttpDo (listingRequest src (stepsURL doc {| BuildNum := 4 |}));
      CountAdd; ErrorsAppend docError],
     Return None).
Proof. vm_compute. reflexivity. Qed.

(** The listing is rejected: [Chunks] returns the wrapped error and the
    channel stays empty. *)
Example demo_listing_rejected :
  Chunks (rt rejecting) rejected [] []
         (Some (wrapError "error getting projects: invalid credentials, status 401"
                          (errorString "invalid credentials, status 401"))).
Proof.
  apply (Chunks_listing_failed (rt rejecting) rejected []
           (errorString "invalid credentials, status 401")).
  vm_compute. reflexivity.
Qed.

(** Isolation: three of the five projects fail.  Some schedule returns,
    and whenever [Wait] returns the channel has received the four chunks
    sent before or beside the failures and the aggregator holds the three
    errors, one for each failing project. *)
Example demo_isolation :
  (∃ sent', Chunks (rt remote) src [] sent' None)
  ∧ (∀ p, Chunks_reaches (rt remote) src [] [api; web; cli; ops; doc] p → drained p →
       chunksChan (shared p) ≡ₚ [apiChunk; cliChunk; opsChunk; docChunk]
       ∧ errors (scanErrs (shared p)) ≡ₚ [webError; opsError; docError]).
Proof.
  split.
  - apply (Chunks_can_return (rt remote) src [] [api; web; cli; ops; doc]).
    + vm_compute. reflexivity.
    + right. vm_compute. reflexivity.
  - intros p Hreach Hdr.
    destruct (Chunks_drained_collects _ _ _ _ _ Hreach Hdr) as [Hch Herr].
    cbn [map concat] in Hch, Herr.
    rewrite demo_task_api, demo_task_web, demo_task_cli, demo_task_ops, demo_task_doc
      in Hch, Herr.
    split; [exact Hch | exact Herr].
Qed.

End DemoFacts.

(** * Further properties of the source *)

(** ** The sanitizer on whole buffers *)

(** The lines of [x] the sanitizer keeps. *)
Definition kept (x : list byte) : list (list byte) :=
  filter (λ l, ¬ has_marker l) (segments x).

Section SanitizerBuffers.
Implicit Types (x a b m pre post : list byte) (ls : list (list byte)).

Lemma marker_no_newline : newline ∉ circleSha1.
Proof. apply (bool_decide_unpack _). vm_compute. exact I. Qed.

(** The segments of two buffers set side by side with a newline between
    them are the segments of the first followed by those of the second. *)
Lemma segments_app a b : segments (a ++ newline :: b) = segments a ++ segments b.
Proof.
  induction a as [|c a IH]; simpl.
  - by destruct (decide (newline = newline)).
  - destruct (decide (c = newline)); rewrite IH; [done |].
    pose proof (segments_nonempty a). by destruct (segments a).
Qed.

(** A buffer that starts with a newline-free piece has that piece at
    the start of its first segment. *)
Lemma segments_head m post :
  newline ∉ m → ∃ l ls, segments (m ++ post) = (m ++ l) :: ls.
Proof.
  induction m as [|c m IH]; simpl.
  - intros _. pose proof (segments_nonempty post).
    destruct (segments post) as [|l ls]; [done |]. by exists l, ls.
  - intros [Hc Hm]%not_elem_of_cons.
    destruct (IH Hm) as (l & ls & ->).
    destruct (decide (c = newline)); [done |]. by exists l, ls.
Qed.

(** A newline-free piece of a buffer lies within one of its segments. *)
Lemma segments_cover m pre post :
  newline ∉ m →
  ∃ l pre' post', l ∈ segments (pre ++ m ++ post) ∧ l = pre' ++ m ++ post'.
Proof.
  intros Hm. induction pre as [|c pre IH]; simpl.
  - destruct (segments_head m post Hm) as (l & ls & ->).
    exists (m ++ l), [], l. split; [left | done].
  - destruct IH as (l & pre' & post' & Hin & ->).
    destruct (decide (c = newline)).
    + exists (pre' ++ m ++ post'), pre', post'. split; [by right | done].
    + destruct (segments (pre ++ m ++ post)) as [|l0 ls] eqn:E;
        [by apply elem_of_nil in Hin |].
      apply elem_of_cons in Hin as [Heq | Hin].
      * exists (c :: l0), (c :: pre'), post'. split; [left | by rewrite <- Heq].
      * exists (pre' ++ m ++ post'), pre', post'. split; [by right | done].
Qed.

Lemma rejoin_sublist ls1 ls2 :
  ls1 `sublist_of` ls2 → rejoin ls1 `sublist_of` rejoin ls2.
Proof.
  induction 1 as [|l ls1 ls2 Hsub IH|l ls1 ls2 Hsub IH].
  - done.
  - destruct ls1 as [|l1 ls1], ls2 as [|l2 ls2].
    + done.
    + change (l `sublist_of` l ++ newline :: rejoin (l2 :: ls2)).
      by apply sublist_inserts_r.
    + by apply sublist_nil_r in Hsub.
    + change (l ++ newline :: rejoin (l1 :: ls1)
                `sublist_of` l ++ newline :: rejoin (l2 :: ls2)).
      apply sublist_app; [done |]. by apply sublist_skip.
  - destruct ls2 as [|l2 ls2].
    + apply sublist_nil_r in Hsub as ->. apply sublist_nil_l.
    + change (rejoin ls1 `sublist_of` l ++ newline :: rejoin (l2 :: ls2)).
      apply sublist_inserts_l. by apply sublist_cons.
Qed.

Lemma rejoin_app ls1 ls2 :
  rejoin (ls1 ++ ls2)
  = match ls1, ls2 with
    | [], _ => rejoin ls2
    | _, [] => rejoin ls1
    | _, _ => rejoin ls1 ++ newline :: rejoin ls2
    end.
Proof.
  induction ls1 as [|l ls1 IH]; [done |].
  destruct ls2 as [|l2 ls2]; [by rewrite app_nil_r |].
  destruct ls1 as [|l1 ls1]; [done |].
  change (l ++ newline :: rejoin ((l1 :: ls1) ++ l2 :: ls2)
          = (l ++ newline :: rejoin (l1 :: ls1)) ++ newline :: rejoin (l2 :: ls2)).
  rewrite IH. by rewrite <- app_assoc.
Qed.

End SanitizerBuffers.

(** X1. The sanitized output holds no occurrence of the marker at all:
    not within a line, and not across a line break either, since the
    marker has no newline in it. *)
Theorem removeCircleSha1Line_marker_free (x : list byte) :
  bytes.Contains (removeCircleSha1Line x) circleSha1 = false.
Proof.
  destruct (bytes.Contains (removeCircleSha1Line x) circleSha1) eqn:Hc; [| done].
  apply Contains_spec in Hc as (pre & post & Heq).
  destruct (segments_cover circleSha1 pre post marker_no_newline)
    as (l & pre' & post' & Hin & Hl).
  rewrite <- Heq, segments_removeCircleSha1Line in Hin.
  assert (Hmark : has_marker l) by (by exists pre', post').
  destruct (filter (λ l, ¬ has_marker l) (segments x)) as [|l0 ls] eqn:E.
  - apply list_elem_of_singleton in Hin as ->. by destruct empty_line_unmarked.
  - rewrite <- E in Hin. apply list_elem_of_filter in Hin as [Hn _]. by destruct Hn.
Qed.

(** X2. The sanitizer only deletes: its output is the input with some
    bytes left out, the others in their order, and so never longer than
    the input. *)
Theorem removeCircleSha1Line_only_deletes (x : list byte) :
  removeCircleSha1Line x `sublist_of` x
  ∧ (length (removeCircleSha1Line x) ≤ length x)%nat.
Proof.
  assert (H : removeCircleSha1Line x `sublist_of` x).
  { rewrite removeCircleSha1Line_unfold.
    rewrite <- (rejoin_segments x) at 2.
    apply rejoin_sublist, sublist_filter. }
  split; [done | by apply sublist_length].
Qed.

(** X3. Sanitizing two buffers set side by side with a newline between
    them is sanitizing each and joining the results with a newline,
    unless one of them loses all its lines: then it is the result of the
    other alone.  In particular a marked line goes together with its
    line break. *)
Theorem removeCircleSha1Line_app (a b : list byte) :
  removeCircleSha1Line (a ++ newline :: b)
  = match kept a, kept b with
    | [], _ => removeCircleSha1Line b
    | _, [] => removeCircleSha1Line a
    | _, _ => removeCircleSha1Line a ++ newline :: removeCircleSha1Line b
    end
  ∧ (∀ m, has_marker m → newline ∉ m →
       removeCircleSha1Line (a ++ newline :: m ++ newline :: b)
       = removeCircleSha1Line (a ++ newline :: b)).
Proof.
  split.
  - rewrite !removeCircleSha1Line_unfold, segments_app, filter_app. apply rejoin_app.
  - intros m Hm Hnl.
    rewrite !removeCircleSha1Line_unfold, !segments_app.
    rewrite (segments_no_newline m Hnl), !filter_app.
    rewrite (filter_cons _ m), decide_False by (by intros Hn; apply Hn).
    done.
Qed.

(** X3 on the log of the examples: the marked line between [line1] and
    [line3] goes with its line break. *)
Lemma removeCircleSha1Line_app_witness :
  removeCircleSha1Line
    (Demo.B "line1" ++ newline :: Demo.B "CIRCLE_SHA1=abcd" ++ newline :: Demo.B "line3")
  = removeCircleSha1Line (Demo.B "line1" ++ newline :: Demo.B "line3").
Proof.
  apply (proj2 (removeCircleSha1Line_app (Demo.B "line1") (Demo.B "line3"))
           (Demo.B "CIRCLE_SHA1=abcd")).
  - exists [], (Demo.B "abcd"). vm_compute. reflexivity.
  - apply (bool_decide_unpack _). vm_compute. exact I.
Defined.

(** ** The accessors and the emitter at their edges *)

(** More remotes and sources for examples: a remote that answers every
    call with status [500] and a list of projects all the same, and the
    source of the examples with a limit of no task and with a negative
    limit. *)
Module Edge.

Definition overloaded : http.Client := fun _ =>
  Ok {| http.StatusCode := 500; http.Body := Ok (Demo.B "[api,web,cli,ops,doc]") |}.

Definition behindOverloaded : Source :=
  (Init (Demo.rt overloaded) Demo.fresh "circleci" 1 2 true Demo.withToken 2).1.

Definition stalled : Source :=
  (Init (Demo.rt Demo.remote) Demo.fresh "circleci" 1 2 true Demo.withToken 0).1.

Definition unbounded : Source :=
  (Init (Demo.rt Demo.remote) Demo.fresh "circleci" 1 2 true Demo.withToken (-1)).1.

(** A remote with no project, and a source on it with a limit of no
    task. *)
Definition deserted : http.Client := fun _ => Demo.ok (Demo.B "[]").

Definition idle : Source :=
  (Init (Demo.rt deserted) Demo.fresh "circleci" 1 2 true Demo.withToken 0).1.

End Edge.

(** X4. The project listing takes a status from [400] to [499], and no
    other, for rejected credentials, before it reads the body; any other
    status, a [500] as well, goes on to the decoder, so that a server
    error with a body that decodes is a successful listing. *)
Theorem projects_status_edges (rt : Runtime) (s : Source) (res : http.Response) :
  url_Parse rt projectsURL = None →
  client s (listingRequest s projectsURL) = Ok res →
  (400 ≤ http.StatusCode res ≤ 499 →
   (projects rt s).2
   = Err (errorString ("invalid credentials, status " +:+ fmt.d (http.StatusCode res))))
  ∧ (http.StatusCode res < 400 ∨ 499 < http.StatusCode res →
     (projects rt s).2
     = match http.Body res with
       | Err err => Err err
       | Ok body => json_Decode_projects rt body
       end).
Proof.
  intros Hurl Hc.
  assert (Hp : (projects rt s).2
               = if (399 <? http.StatusCode res) && (http.StatusCode res <? 500)
                 then Err (errorString ("invalid credentials, status "
                                          +:+ fmt.d (http.StatusCode res)))
                 else match http.Body res with
                      | Err err => Err err
                      | Ok body => json_Decode_projects rt body
                      end).
  { unfold projects, http_NewRequest. fold projectsURL. rewrite Hurl.
    fold (listingRequest s projectsURL).
    unfold Do. rewrite !bind_ops. cbn [fst snd emit ret]. rewrite Hc.
    destruct ((399 <? http.StatusCode res) && (http.StatusCode res <? 500)); [done |].
    by destruct (http.Body res). }
  rewrite Hp. split; intros Hsc.
  - destruct (Z.ltb_spec 399 (http.StatusCode res)); [| lia].
    destruct (Z.ltb_spec (http.StatusCode res) 500); [done | lia].
  - destruct (Z.ltb_spec 399 (http.StatusCode res)); [| done].
    destruct (Z.ltb_spec (http.StatusCode res) 500); [lia | done].
Qed.

(** X4 at a remote that answers [500] with a list of projects, and at one
    that answers [401]. *)
Lemma projects_status_edges_witness :
  (projects (Demo.rt Edge.overloaded) Edge.behindOverloaded).2
  = Ok [Demo.api; Demo.web; Demo.cli; Demo.ops; Demo.doc]
  ∧ (projects (Demo.rt Demo.rejecting) Demo.rejected).2
    = Err (errorString "invalid credentials, status 401").
Proof.
  split.
  - apply (proj2 (projects_status_edges (Demo.rt Edge.overloaded) Edge.behindOverloaded
                    {| http.StatusCode := 500;
                       http.Body := Ok (Demo.B "[api,web,cli,ops,doc]") |}
                    eq_refl eq_refl)).
    right. vm_compute. reflexivity.
  - apply (proj1 (projects_status_edges (Demo.rt Demo.rejecting) Demo.rejected
                    {| http.StatusCode := 401; http.Body := Ok (Demo.B "{}") |}
                    eq_refl eq_refl)).
    split; vm_compute; discriminate.
Defined.

(** X5. [chunkAction] returns [nil] exactly when it has sent a chunk, and
    then it has sent one; when it returns an error, be it of the request
    that could not be built, of the transport or of reading the body, it
    has sent nothing. *)
Theorem chunkAction_sends_iff_nil (rt : Runtime) (s : Source) (proj : project)
    (bld : build) (act : action) (stepName : string) :
  ((chunkAction rt s proj bld act stepName).2 = None
   ↔ ∃ chunk, sends (chunkAction rt s proj bld act stepName).1 = [chunk])
  ∧ (is_Some (chunkAction rt s proj bld act stepName).2
     ↔ sends (chunkAction rt s proj bld act stepName).1 = []).
Proof.
  destruct (chunkAction_cases rt s proj bld act stepName)
    as [[err ->] | [[err ->] | (res & logOutput & _ & _ & ->)]]; cbn.
  - split; split; [done | by intros [? ?] | done | by eexists].
  - split; split; [done | by intros [? ?] | done | by eexists].
  - split; split; [by eexists | done | by intros [? ?] | done].
Qed.

(** ** Everything a project task does *)

Section TaskOps.
Variable rt : Runtime.
Variable s : Source.

Lemma ops_forRange {X} (xs : list X) (body : X → Go Flow) (op : Op) :
  op ∈ (forRange xs body).1 → ∃ x, x ∈ xs ∧ op ∈ (body x).1.
Proof.
  induction xs as [|x xs IH]; cbn [forRange].
  - intros Hin. by apply elem_of_nil in Hin.
  - destruct (body x) as [ops [|r]] eqn:Hx.
    + rewrite andThen_Next. cbn [fst]. rewrite elem_of_app.
      intros [Hin | Hin].
      * exists x. rewrite Hx. split; [left | done].
      * destruct (IH Hin) as (x' & Hx' & Hin'). exists x'. split; [by right | done].
    + rewrite andThen_Return. cbn [fst]. intros Hin.
      exists x. rewrite Hx. split; [left | done].
Qed.

(** An operation of the body of the innermost loop is one of the fetch,
    or one of the two of recording the error the fetch returned. *)
Lemma walkAction_ops proj bld stepName act op :
  op ∈ (walkAction rt s proj bld stepName act).1 →
  op ∈ (chunkAction rt s proj bld act stepName).1
  ∨ ∃ cause,
      (chunkAction rt s proj bld act stepName).2 = Some cause
      ∧ (op = CountAdd
         ∨ op = ErrorsAppend (fmt.Errorf_w ("error chunking action "
                                              +:+ fmt_v_action act +:+ ": ") cause)).
Proof.
  unfold walkAction. rewrite bind_ops. cbn [fst]. rewrite elem_of_app.
  intros [Hin | Hin]; [by left |].
  destruct (chunkAction rt s proj bld act stepName).2 as [cause|]; cbn in Hin.
  - right. exists cause. split; [done |].
    apply elem_of_cons in Hin as [-> | Hin]; [by left |].
    apply list_elem_of_singleton in Hin as ->. by right.
  - by apply elem_of_nil in Hin.
Qed.

Lemma walkBuild_ops proj bld op :
  op ∈ (walkBuild rt s proj bld).1 →
  op ∈ (stepsForBuild rt s proj bld).1
  ∨ (∃ cause,
       (stepsForBuild rt s proj bld).2 = Err cause
       ∧ (op = CountAdd
          ∨ op = ErrorsAppend (fmt.Errorf_w ("error getting steps for build "
                                               +:+ fmt.d (BuildNum bld) +:+ ": ") cause)))
  ∨ (∃ buildSteps step act,
       (stepsForBuild rt s proj bld).2 = Ok buildSteps
       ∧ step ∈ buildSteps ∧ act ∈ Actions step
       ∧ op ∈ (walkAction rt s proj bld (Name step) act).1).
Proof.
  unfold walkBuild. rewrite bind_ops. cbn [fst]. rewrite elem_of_app.
  intros [Hin | Hin]; [by left | right].
  destruct (stepsForBuild rt s proj bld).2 as [buildSteps|cause].
  - right. apply ops_forRange in Hin as (step & Hstep & Hin).
    apply ops_forRange in Hin as (act & Hact & Hin).
    exists buildSteps, step, act. done.
  - left. exists cause. split; [done |]. cbn in Hin.
    apply elem_of_cons in Hin as [-> | Hin]; [by left |].
    apply list_elem_of_singleton in Hin as ->. by right.
Qed.

Lemma projectTask_ops proj op :
  op ∈ (projectTask rt s proj).1 →
  op ∈ (buildsForProject rt s proj).1
  ∨ (∃ cause,
       (buildsForProject rt s proj).2 = Err cause
       ∧ (op = CountAdd
          ∨ op = ErrorsAppend (fmt.Errorf_w ("error getting builds for project "
                                               +:+ RepoName proj +:+ ": ") cause)))
  ∨ (∃ builds bld,
       (buildsForProject rt s proj).2 = Ok builds ∧ bld ∈ builds
       ∧ op ∈ (walkBuild rt s proj bld).1)
  ∨ op = ScannedAdd.
Proof.
  rewrite projectTask_unfold, bind_ops. cbn [fst]. rewrite elem_of_app.
  intros [Hin | Hin]; [by left | right].
  destruct (buildsForProject rt s proj).2 as [builds|cause].
  - right. destruct (forRange builds (walkBuild rt s proj)) as [ops [|r]] eqn:E.
    + rewrite andThen_Next in Hin. cbn [fst] in Hin.
      apply elem_of_app in Hin as [Hin | Hin].
      * left. rewrite <- (f_equal fst E : _ = ops) in Hin.
        apply ops_forRange in Hin as (bld & Hbld & Hin). exists builds, bld. done.
      * right. by apply list_elem_of_singleton in Hin.
    + rewrite andThen_Return in Hin. cbn [fst] in Hin.
      left. rewrite <- (f_equal fst E : _ = ops) in Hin.
      apply ops_forRange in Hin as (bld & Hbld & Hin). exists builds, bld. done.
  - left. exists cause. split; [done |]. cbn in Hin.
    apply elem_of_cons in Hin as [-> | Hin]; [by left |].
    apply list_elem_of_singleton in Hin as ->. by right.
Qed.

(** The requests of a task: the build listing, step listings of listed
    builds and log fetches of listed actions. *)
Lemma projectTask_requests proj req :
  HttpDo req ∈ (projectTask rt s proj).1 →
  req = listingRequest s (buildsURL proj)
  ∨ (∃ bld, req = listingRequest s (stepsURL proj bld))
  ∨ (∃ act, req = logRequest act).
Proof.
  intros Hin. apply projectTask_ops in Hin
    as [Hin | [(cause & _ & [Hin | Hin]) | [(builds & bld & _ & _ & Hin) | Hin]]];
    try discriminate Hin.
  - left. destruct (buildsForProject_ops rt s proj) as [Heq | Heq]; rewrite Heq in Hin.
    + by apply elem_of_nil in Hin.
    + apply list_elem_of_singleton in Hin. by injection Hin.
  - apply walkBuild_ops in Hin
      as [Hin | [(cause & _ & [Hin | Hin]) | (buildSteps & step & act & _ & _ & _ & Hin)]];
      try discriminate Hin.
    + right; left. exists bld.
      destruct (stepsForBuild_ops rt s proj bld) as [Heq | Heq]; rewrite Heq in Hin.
      * by apply elem_of_nil in Hin.
      * apply list_elem_of_singleton in Hin. by injection Hin.
    + right; right. exists act.
      apply walkAction_ops in Hin as [Hin | (cause & _ & [Hin | Hin])];
        try discriminate Hin.
      destruct (chunkAction_cases rt s proj bld act (Name step))
        as [[err Heq] | [[err Heq] | (res & logOutput & _ & _ & Heq)]];
        rewrite Heq in Hin; cbn [fst] in Hin.
      * by apply elem_of_nil in Hin.
      * apply list_elem_of_singleton in Hin. by injection Hin.
      * apply elem_of_cons in Hin as [Hin | Hin]; [by injection Hin |].
        apply list_elem_of_singleton in Hin. discriminate Hin.
Qed.

End TaskOps.

(** X6. The credential stays with the API: whatever request the project
    listing or a project task sends with a [Circle-Token] header goes to
    a URL that starts with the base URL of the API.  The log URLs, which
    the API hands out, never get the token. *)
Theorem token_sent_to_api_only (rt : Runtime) (s : Source) :
  (∀ req, HttpDo req ∈ (projects rt s).1 →
     is_Some (http.Header req !! "Circle-Token") →
     ∃ rest, http.URL req = "https://circleci.com/api/v1.1/" +:+ rest)
  ∧ (∀ proj req, HttpDo req ∈ (projectTask rt s proj).1 →
       is_Some (http.Header req !! "Circle-Token") →
       ∃ rest, http.URL req = "https://circleci.com/api/v1.1/" +:+ rest).
Proof.
  split.
  - intros req Hin _. destruct (projects_ops rt s) as [Heq | Heq]; rewrite Heq in Hin.
    + by apply elem_of_nil in Hin.
    + apply list_elem_of_singleton in Hin. injection Hin as ->. by eexists.
  - intros proj req Hin Htok.
    apply projectTask_requests in Hin as [-> | [[bld ->] | [act ->]]].
    + by eexists.
    + by eexists.
    + cbn in Htok. rewrite lookup_empty in Htok. by destruct Htok.
Qed.

(** X6 at the task of project [api]: its step listing carries the token
    and goes to the API. *)
Lemma token_sent_to_api_only_witness :
  ∃ rest,
    http.URL (listingRequest Demo.src (stepsURL Demo.api {| BuildNum := 42 |}))
    = "https://circleci.com/api/v1.1/" +:+ rest.
Proof.
  apply (proj2 (token_sent_to_api_only (Demo.rt Demo.remote) Demo.src) Demo.api).
  - vm_compute. right. left.
  - exists ["secret"]. vm_compute. reflexivity.
Defined.

Lemma string_app_assoc (a b c : string) : (a +:+ b) +:+ c = a +:+ b +:+ c.
Proof.
  induction a as [|ch a IH]; [reflexivity |].
  change (String ch ((a +:+ b) +:+ c) = String ch (a +:+ b +:+ c)). by rewrite IH.
Qed.

(** X7. The aggregator holds no error that did not happen: an error a
    project task records wraps the error that the build listing, the step
    listing of a listed build or the fetch of a listed action returned,
    under a message that names the repository, the build number or the
    action; and whatever the aggregator holds in a state a run of
    [Chunks] reaches was recorded by the task of a listed project. *)
Theorem recorded_error_has_cause (rt : Runtime) (s : Source) :
  (∀ proj err,
     ErrorsAppend err ∈ (projectTask rt s proj).1 →
     (∃ cause,
        (buildsForProject rt s proj).2 = Err cause
        ∧ err = wrapError ("error getting builds for project " +:+ RepoName proj
                             +:+ ": " +:+ Error cause) cause)
     ∨ (∃ builds bld cause,
          (buildsForProject rt s proj).2 = Ok builds ∧ bld ∈ builds
          ∧ (stepsForBuild rt s proj bld).2 = Err cause
          ∧ err = wrapError ("error getting steps for build " +:+ fmt.d (BuildNum bld)
                               +:+ ": " +:+ Error cause) cause)
     ∨ (∃ builds bld buildSteps step act cause,
          (buildsForProject rt s proj).2 = Ok builds ∧ bld ∈ builds
          ∧ (stepsForBuild rt s proj bld).2 = Ok buildSteps
          ∧ step ∈ buildSteps ∧ act ∈ Actions step
          ∧ (chunkAction rt s proj bld act (Name step)).2 = Some cause
          ∧ err = wrapError ("error chunking action {" +:+ fmt.d (Index act) +:+ " "
                               +:+ OutputURL act +:+ "}: " +:+ Error cause) cause))
  ∧ (∀ sent projs p err,
       Chunks_reaches rt s sent projs p →
       err ∈ errors (scanErrs (shared p)) →
       ∃ proj, proj ∈ projs ∧ ErrorsAppend err ∈ (projectTask rt s proj).1).
Proof.
  assert (Hassoc : ∀ a b c d : string, (a +:+ b +:+ c) +:+ d = a +:+ b +:+ c +:+ d).
  { intros a b c d. by rewrite !string_app_assoc. }
  split.
  - intros proj err Hin. apply projectTask_ops in Hin
      as [Hin | [(cause & Hb & [Hin | Hin]) | [(builds & bld & Hb & Hbld & Hin) | Hin]]];
      try discriminate Hin.
    + destruct (buildsForProject_ops rt s proj) as [Heq | Heq]; rewrite Heq in Hin.
      * by apply elem_of_nil in Hin.
      * apply list_elem_of_singleton in Hin. discriminate Hin.
    + left. exists cause. split; [done |]. injection Hin as ->.
      unfold fmt.Errorf_w. by rewrite Hassoc.
    + right. apply walkBuild_ops in Hin
        as [Hin | [(cause & Hst & [Hin | Hin])
                  | (buildSteps & step & act & Hst & Hstep & Hact & Hin)]];
        try discriminate Hin.
      * destruct (stepsForBuild_ops rt s proj bld) as [Heq | Heq]; rewrite Heq in Hin.
        -- by apply elem_of_nil in Hin.
        -- apply list_elem_of_singleton in Hin. discriminate Hin.
      * left. exists builds, bld, cause. split_and!; [done .. |]. injection Hin as ->.
        unfold fmt.Errorf_w. by rewrite Hassoc.
      * right. apply walkAction_ops in Hin as [Hin | (cause & Hc & [Hin | Hin])];
          try discriminate Hin.
        -- destruct (chunkAction_cases rt s proj bld act (Name step))
             as [[e Heq] | [[e Heq] | (res & logOutput & _ & _ & Heq)]];
             rewrite Heq in Hin; cbn [fst] in Hin.
           ++ by apply elem_of_nil in Hin.
           ++ apply list_elem_of_singleton in Hin. discriminate Hin.
           ++ apply elem_of_cons in Hin as [Hin | Hin]; [discriminate Hin |].
              apply list_elem_of_singleton in Hin. discriminate Hin.
        -- exists builds, bld, buildSteps, step, act, cause.
           split_and!; [done .. |]. injection Hin as ->.
           unfold fmt.Errorf_w, fmt_v_action.
           by rewrite !string_app_assoc.
  - intros sent projs p err Hreach Hin.
    pose proof (rtc_step_conserves (jobPool s) (fun proj => (projectTask rt s proj).1)
                  (fun op => match op with ErrorsAppend err => Some err | _ => None end)
                  (fun sh => errors (scanErrs sh))) as Hcons.
    specialize (Hcons ltac:(intros [] sh; simpl; by rewrite ?app_nil_r) _ _ Hreach).
    assert (Hin' : err ∈ errors (scanErrs (shared p))
                     ++ pending (fun proj => (projectTask rt s proj).1)
                          (fun op => match op with ErrorsAppend err => Some err | _ => None end)
                          p).
    { apply elem_of_app. by left. }
    rewrite Hcons in Hin'. unfold pending in Hin'. simpl in Hin'.
    rewrite omap_concat, map_map in Hin'.
    apply elem_of_concat_map in Hin' as (proj & Hproj & Hin').
    exists proj. split; [done |].
    apply list_elem_of_omap in Hin' as (op & Hop & Hsome).
    destruct op; try discriminate Hsome. by injection Hsome as ->.
Qed.

(** X7 at the task of project [ops]: the recorded error wraps the refusal
    of the second action's fetch. *)
Lemma recorded_error_has_cause_witness :
  (∃ cause,
     (buildsForProject (Demo.rt Demo.remote) Demo.src Demo.ops).2 = Err cause
     ∧ Demo.opsError
       = wrapError ("error getting builds for project " +:+ RepoName Demo.ops
                      +:+ ": " +:+ Error cause) cause)
  ∨ (∃ builds bld cause,
       (buildsForProject (Demo.rt Demo.remote) Demo.src Demo.ops).2 = Ok builds
       ∧ bld ∈ builds
       ∧ (stepsForBuild (Demo.rt Demo.remote) Demo.src Demo.ops bld).2 = Err cause
       ∧ Demo.opsError
         = wrapError ("error getting steps for build " +:+ fmt.d (BuildNum bld)
                        +:+ ": " +:+ Error cause) cause)
  ∨ (∃ builds bld buildSteps step act cause,
       (buildsForProject (Demo.rt Demo.remote) Demo.src Demo.ops).2 = Ok builds
       ∧ bld ∈ builds
       ∧ (stepsForBuild (Demo.rt Demo.remote) Demo.src Demo.ops bld).2 = Ok buildSteps
       ∧ step ∈ buildSteps ∧ act ∈ Actions step
       ∧ (chunkAction (Demo.rt Demo.remote) Demo.src Demo.ops bld act (Name step)).2
         = Some cause
       ∧ Demo.opsError
         = wrapError ("error chunking action {" +:+ fmt.d (Index act) +:+ " "
                        +:+ OutputURL act +:+ "}: " +:+ Error cause) cause).
Proof.
  apply (proj1 (recorded_error_has_cause (Demo.rt Demo.remote) Demo.src)
           Demo.ops Demo.opsError).
  vm_compute. do 6 right. left.
Defined.

(** ** What a task without failure sends *)

(** The body the remote serves for the log of an action (empty when it
    serves none). *)
Definition logOutputOf (s : Source) (act : action) : list byte :=
  match client s (logRequest act) with
  | Ok res => match http.Body res with Ok body => body | Err _ => [] end
  | Err _ => []
  end.

(** One chunk for every action of a step, of a build, of a project, in
    the order of the listings. *)
Definition stepChunks (s : Source) (proj : project) (bld : build) (step : buildStep)
    : list sources.Chunk :=
  map (fun act => chunkOf s proj bld (Name step) (logOutputOf s act)) (Actions step).

Definition buildChunks (rt : Runtime) (s : Source) (proj : project) (bld : build)
    : list sources.Chunk :=
  match (stepsForBuild rt s proj bld).2 with
  | Ok buildSteps => concat (map (stepChunks s proj bld) buildSteps)
  | Err _ => []
  end.

Definition projectChunks (rt : Runtime) (s : Source) (proj : project)
    : list sources.Chunk :=
  match (buildsForProject rt s proj).2 with
  | Ok builds => concat (map (buildChunks rt s proj) builds)
  | Err _ => []
  end.

Section CleanTask.
Variable rt : Runtime.
Variable s : Source.

(** A loop that runs to its end performs what its rounds perform, one
    after the other. *)
Lemma forRange_Next_ops {X} (xs : list X) (body : X → Go Flow) :
  (forRange xs body).2 = Next →
  (forRange xs body).1 = concat (map (fun x => (body x).1) xs).
Proof.
  induction xs as [|x xs IH]; cbn [forRange map concat]; [done |].
  destruct (body x) as [ops [|r]].
  - rewrite andThen_Next. cbn [fst snd]. intros Hrest. by rewrite IH.
  - rewrite andThen_Return. discriminate.
Qed.

Lemma sends_concat (opss : list (list Op)) :
  sends (concat opss) = concat (map sends opss).
Proof. apply omap_concat. Qed.

Lemma listing_sends_nothing :
  (∀ proj, sends (buildsForProject rt s proj).1 = [])
  ∧ (∀ proj bld, sends (stepsForBuild rt s proj bld).1 = []).
Proof.
  split; intros.
  - by destruct (buildsForProject_ops rt s proj) as [-> | ->].
  - by destruct (stepsForBuild_ops rt s proj bld) as [-> | ->].
Qed.

Lemma walkAction_Next_sends proj bld stepName act :
  (walkAction rt s proj bld stepName act).2 = Next →
  sends (walkAction rt s proj bld stepName act).1
  = [chunkOf s proj bld stepName (logOutputOf s act)].
Proof.
  unfold walkAction, logOutputOf. rewrite bind_ops.
  destruct (chunkAction_cases rt s proj bld act stepName)
    as [[err ->] | [[err ->] | (res & logOutput & -> & -> & ->)]]; cbn [fst snd];
    [discriminate | discriminate | done].
Qed.

Lemma walkStep_Next_sends proj bld step :
  (walkStep rt s proj bld step).2 = Next →
  sends (walkStep rt s proj bld step).1 = stepChunks s proj bld step.
Proof.
  unfold walkStep, stepChunks. intros Hnext.
  rewrite (forRange_Next_ops _ _ Hnext), sends_concat, map_map.
  pose proof (forRange_Next _ _ Hnext) as Hall. clear Hnext.
  induction (Actions step) as [|act acts IH]; [done |].
  cbn [map concat]. rewrite walkAction_Next_sends by (apply Hall; left).
  rewrite IH; [done |]. intros act' Hact'. apply Hall. by right.
Qed.

Lemma walkBuild_Next_sends proj bld :
  (walkBuild rt s proj bld).2 = Next →
  sends (walkBuild rt s proj bld).1 = buildChunks rt s proj bld.
Proof.
  unfold walkBuild, buildChunks. rewrite bind_ops. cbn [fst snd].
  rewrite sends_app, (proj2 listing_sends_nothing).
  destruct (stepsForBuild rt s proj bld).2 as [buildSteps|err]; [| discriminate].
  intros Hnext. cbn [app].
  rewrite (forRange_Next_ops _ _ Hnext), sends_concat, map_map.
  pose proof (forRange_Next _ _ Hnext) as Hall. clear Hnext.
  induction buildSteps as [|step steps IH]; [done |].
  cbn [map concat]. rewrite walkStep_Next_sends by (apply Hall; left).
  rewrite IH; [done |]. intros step' Hstep'. apply Hall. by right.
Qed.

(** A task that counts its project as scanned has run the loop over the
    builds to its end. *)
Lemma projectTask_scanned_loop proj :
  ScannedAdd ∈ (projectTask rt s proj).1 →
  ∃ builds,
    (buildsForProject rt s proj).2 = Ok builds
    ∧ (forRange builds (walkBuild rt s proj)).2 = Next
    ∧ (projectTask rt s proj).1
      = (buildsForProject rt s proj).1
          ++ (forRange builds (walkBuild rt s proj)).1 ++ [ScannedAdd].
Proof.
  rewrite projectTask_unfold, bind_ops. cbn [fst]. rewrite elem_of_app.
  intros [Hin | Hin].
  - by destruct (quiet_not_scanned _ (proj1 (proj2 (listing_quiet rt s)) proj)).
  - destruct (buildsForProject rt s proj).2 as [builds|err]; cbn [fst] in *.
    + exists builds. split; [done |].
      pose proof (forRange_settled builds _ (walkBuild_settled rt s proj)) as Hs.
      destruct (forRange builds (walkBuild rt s proj)) as [ops [|r]].
      * rewrite andThen_Next. done.
      * rewrite andThen_Return in Hin. by destruct (settled_scanned _ Hs).
    + apply elem_of_cons in Hin as [Hin | Hin]; [discriminate Hin |].
      apply list_elem_of_singleton in Hin. discriminate Hin.
Qed.

Lemma projectTask_scanned_sends proj :
  ScannedAdd ∈ (projectTask rt s proj).1 →
  sends (projectTask rt s proj).1 = projectChunks rt s proj.
Proof.
  intros Hin. destruct (projectTask_scanned_loop proj Hin) as (builds & Hb & Hnext & ->).
  unfold projectChunks. rewrite Hb.
  rewrite !sends_app, (proj1 listing_sends_nothing). cbn [app].
  rewrite (forRange_Next_ops _ _ Hnext), sends_concat, map_map.
  change (sends [ScannedAdd]) with (@nil sources.Chunk). rewrite app_nil_r.
  pose proof (forRange_Next _ _ Hnext) as Hall. clear Hnext Hb Hin.
  induction builds as [|bld builds IH]; [done |].
  cbn [map concat]. rewrite walkBuild_Next_sends by (apply Hall; left).
  rewrite IH; [done |]. intros bld' Hbld'. apply Hall. by right.
Qed.

End CleanTask.

(** X8. A project task that meets no failure sends exactly one chunk for
    every action of every step of every build of the project, in the
    order of the listings, each built from the body fetched for its
    action.  When no task of a run fails, the channel has received exactly these
    chunks of every listed project when [Wait] returns. *)
Theorem clean_task_sends_one_chunk_per_action (rt : Runtime) (s : Source) :
  (∀ proj,
     ScannedAdd ∈ (projectTask rt s proj).1 →
     sends (projectTask rt s proj).1 = projectChunks rt s proj)
  ∧ (∀ sent projs p,
       Chunks_reaches rt s sent projs p → drained p →
       (∀ proj, proj ∈ projs → ScannedAdd ∈ (projectTask rt s proj).1) →
       chunksChan (shared p) ≡ₚ sent ++ concat (map (projectChunks rt s) projs)
       ∧ errors (scanErrs (shared p)) = []).
Proof.
  split; [apply projectTask_scanned_sends |].
  intros sent projs p Hreach Hdr Hall.
  destruct (Chunks_drained_collects rt s sent projs p Hreach Hdr) as [Hch Herr].
  assert (Hs : map (fun proj => sends (projectTask rt s proj).1) projs
               = map (projectChunks rt s) projs
               ∧ concat (map (fun proj => appends (projectTask rt s proj).1) projs) = []).
  { clear -Hall. induction projs as [|proj projs IH]; [done |].
    destruct IH as [IH1 IH2]; [intros proj' Hp; apply Hall; by right |].
    cbn [map concat]. rewrite IH1, IH2.
    rewrite (projectTask_scanned_sends rt s proj) by (apply Hall; left).
    split; [done |]. rewrite app_nil_r.
    destruct (projectTask_shape rt s proj) as (ops & tail & Heq & Hq & Htail).
    specialize (Hall proj ltac:(left)). rewrite Heq in Hall |- *. cbn [fst] in *.
    unfold appends. rewrite omap_app. fold (appends ops). rewrite (appends_quiet ops Hq).
    destruct Htail as [-> | [err ->]]; [done |].
    apply elem_of_app in Hall as [Hall | Hall].
    - by destruct (quiet_not_scanned ops Hq).
    - apply elem_of_cons in Hall as [Hall | Hall]; [discriminate Hall |].
      apply list_elem_of_singleton in Hall. discriminate Hall. }
  destruct Hs as [Hs1 Hs2]. rewrite Hs1 in Hch. rewrite Hs2 in Herr.
  split; [done |]. by apply Permutation_nil_r in Herr.
Qed.

(** X8 at the task of project [api]: one build, one step, one action,
    one chunk. *)
Lemma clean_task_sends_one_chunk_per_action_witness :
  sends (projectTask (Demo.rt Demo.remote) Demo.src Demo.api).1 = [Demo.apiChunk].
Proof.
  rewrite (proj1 (clean_task_sends_one_chunk_per_action (Demo.rt Demo.remote) Demo.src)
             Demo.api).
  - vm_compute. reflexivity.
  - vm_compute. do 4 right. left.
Defined.

(** ** Order and counts in the pool *)

(** How far the pool is with the task of every listed project: not
    started, or active with what it has sent so far on the channel in
    that order, or ended with all it sends on the channel in that
    order. *)
Definition served (task : project → list Op) (projs : list project) (p : Pool) : Prop :=
  ∀ proj, proj ∈ projs →
    proj ∈ todo p
    ∨ (∃ sofar rest,
         rest ∈ running p ∧ sofar ++ rest = task proj
         ∧ sends sofar `sublist_of` chunksChan (shared p))
    ∨ sends (task proj) `sublist_of` chunksChan (shared p).

(** One tick for every project counted as scanned among the operations. *)
Definition scans (ops : list Op) : list unit :=
  omap (fun op => match op with ScannedAdd => Some tt | _ => None end) ops.

Section PoolOrder.
Variable g : errgroup.Group.
Variable task : project → list Op.

Lemma exec_chunksChan op sh : chunksChan (exec op sh) = chunksChan sh ++ sends [op].
Proof. destruct op; simpl; by rewrite ?app_nil_r. Qed.

Lemma step_served projs p p' : step g task p p' → served task projs p → served task projs p'.
Proof.
  intros Hstep Hserved proj Hproj. specialize (Hserved proj Hproj).
  destruct Hstep as [proj0 td run sh Hslot | td run1 op ops run2 sh | td run1 run2 sh];
    cbn [todo running shared] in *.
  - destruct Hserved as [Htodo | [(sofar & rest & Hrest & Heq & Hsub) | Hsub]].
    + apply elem_of_cons in Htodo as [-> | Htodo]; [| by left].
      right; left. exists [], (task proj0). split_and!; [| done | apply sublist_nil_l].
      apply elem_of_app. right. left.
    + right; left. exists sofar, rest. split_and!; [| done | done].
      apply elem_of_app. by left.
    + by right; right.
  - rewrite exec_chunksChan.
    destruct Hserved as [Htodo | [(sofar & rest & Hrest & Heq & Hsub) | Hsub]].
    + by left.
    + right; left. apply elem_of_app in Hrest as [Hrest | Hrest].
      * exists sofar, rest. split_and!; [| done | by apply sublist_inserts_r].
        apply elem_of_app. by left.
      * apply elem_of_cons in Hrest as [-> | Hrest].
        -- exists (sofar ++ [op]), ops. split_and!.
           ++ apply elem_of_app. right. left.
           ++ by rewrite <- app_assoc.
           ++ rewrite sends_app. by apply sublist_app.
        -- exists sofar, rest. split_and!; [| done | by apply sublist_inserts_r].
           apply elem_of_app. right. by right.
    + right; right. by apply sublist_inserts_r.
  - destruct Hserved as [Htodo | [(sofar & rest & Hrest & Heq & Hsub) | Hsub]].
    + by left.
    + apply elem_of_app in Hrest as [Hrest | Hrest].
      * right; left. exists sofar, rest. split_and!; [| done | done].
        apply elem_of_app. by left.
      * apply elem_of_cons in Hrest as [-> | Hrest].
        -- right; right. by rewrite <- Heq, app_nil_r.
        -- right; left. exists sofar, rest. split_and!; [| done | done].
           apply elem_of_app. by right.
    + by right; right.
Qed.

Lemma rtc_step_served projs p p' :
  rtc (step g task) p p' → served task projs p → served task projs p'.
Proof.
  induction 1 as [|p p' p'' Hstep _ IH]; [done |].
  intros Hserved. by apply IH, (step_served projs p).
Qed.

(** The channel only grows at its end. *)
Lemma rtc_step_prefix p p' :
  rtc (step g task) p p' → chunksChan (shared p) `prefix_of` chunksChan (shared p').
Proof.
  induction 1 as [|p p' p'' Hstep _ IH]; [done |].
  etrans; [| exact IH].
  destruct Hstep; cbn [shared]; [done | | done].
  rewrite exec_chunksChan. by apply prefix_app_r.
Qed.

Local Abbreviation scanned_tick :=
  (fun op => match op with ScannedAdd => Some tt | _ => None end).

(** The counter of scanned projects plus the counts still to come is the
    same, modulo [2^64], before and after a step. *)
Lemma step_scans p p' :
  step g task p p' →
  0 ≤ scanned (shared p) < 2 ^ 64 →
  0 ≤ scanned (shared p') < 2 ^ 64
  ∧ (scanned (shared p') + Z.of_nat (length (pending task scanned_tick p'))) mod 2 ^ 64
    = (scanned (shared p) + Z.of_nat (length (pending task scanned_tick p))) mod 2 ^ 64.
Proof.
  intros [proj td run sh Hslot | td run1 op ops run2 sh | td run1 run2 sh] Hc;
    unfold pending; cbn [shared running todo map] in *.
  - split; [done |]. rewrite !concat_app. cbn [concat].
    rewrite app_nil_r, !omap_app, !length_app. f_equal. lia.
  - rewrite !concat_app, !concat_cons.
    change (op :: ops) with ([op] ++ ops). rewrite !omap_app, !length_app.
    destruct op; cbn [exec scanned omap length];
      try (split; [done | f_equal; simpl; lia]).
    split; [unfold atomic_AddUint64; apply Z.mod_pos_bound; lia |].
    unfold atomic_AddUint64. rewrite Z.add_mod_idemp_l by lia.
    f_equal. simpl. lia.
  - split; [done |]. rewrite !concat_app. cbn [concat app]. done.
Qed.

Lemma rtc_step_scans p p' :
  rtc (step g task) p p' →
  0 ≤ scanned (shared p) < 2 ^ 64 →
  0 ≤ scanned (shared p') < 2 ^ 64
  ∧ (scanned (shared p') + Z.of_nat (length (pending task scanned_tick p'))) mod 2 ^ 64
    = (scanned (shared p) + Z.of_nat (length (pending task scanned_tick p))) mod 2 ^ 64.
Proof.
  induction 1 as [|p p' p'' Hstep _ IH]; [done |].
  intros Hc. destruct (step_scans p p' Hstep Hc) as [Hc' Heq].
  destruct (IH Hc') as [Hc'' Heq']. split; [done |]. by rewrite Heq'.
Qed.

End PoolOrder.

(** X9. Within one project the chunks keep their order: when [Wait]
    returns, the chunks the task of a listed project sends are on the
    channel in the order the task sent them, whatever the other tasks
    sent in between.  And in every state of a run what the channel had
    received before the call is still its beginning. *)
Theorem chunks_of_a_project_keep_their_order (rt : Runtime) (s : Source) :
  (∀ sent projs p proj,
     Chunks_reaches rt s sent projs p → drained p → proj ∈ projs →
     sends (projectTask rt s proj).1 `sublist_of` chunksChan (shared p))
  ∧ (∀ sent projs p,
       Chunks_reaches rt s sent projs p → sent `prefix_of` chunksChan (shared p)).
Proof.
  split.
  - intros sent projs p proj Hreach [Htd Hrun] Hproj.
    assert (Hinit : served (fun proj => (projectTask rt s proj).1) projs
                           (fanOut sent projs)).
    { intros proj' Hproj'. by left. }
    destruct (rtc_step_served _ _ projs _ _ Hreach Hinit proj Hproj)
      as [Htodo | [(sofar & rest & Hrest & _) | Hsub]]; [| | done].
    + rewrite Htd in Htodo. by apply elem_of_nil in Htodo.
    + rewrite Hrun in Hrest. by apply elem_of_nil in Hrest.
  - intros sent projs p Hreach.
    apply (rtc_step_prefix _ _ _ _ Hreach).
Qed.

(** *** Schedules written down

    A schedule of the pool as data: at each point, [jobPool.Go] starting
    the next project, the active goroutine at an index performing its
    next operation, or that goroutine ending.  A schedule that replays
    is a run of the pool. *)
Inductive Move := Start | Act (i : nat) | Stop (i : nat).

Definition has_slotb (g : errgroup.Group) (active : nat) : bool :=
  match errgroup.sem g with
  | None => true
  | Some n => Z.of_nat active <? n
  end.

Definition move (g : errgroup.Group) (task : project → list Op) (m : Move) (p : Pool)
    : option Pool :=
  match m with
  | Start =>
      match todo p with
      | proj :: td =>
          if has_slotb g (length (running p))
          then Some {| todo := td; running := running p ++ [task proj]; shared := shared p |}
          else None
      | [] => None
      end
  | Act i =>
      match running p !! i with
      | Some (op :: ops) =>
          Some {| todo := todo p; running := <[i := ops]> (running p);
                  shared := exec op (shared p) |}
      | _ => None
      end
  | Stop i =>
      match running p !! i with
      | Some [] => Some {| todo := todo p; running := delete i (running p);
                           shared := shared p |}
      | _ => None
      end
  end.

Fixpoint replay (g : errgroup.Group) (task : project → list Op) (ms : list Move) (p : Pool)
    : option Pool :=
  match ms with
  | [] => Some p
  | m :: ms => p' ← move g task m p; replay g task ms p'
  end.

Lemma move_step g task m p p' : move g task m p = Some p' → step g task p p'.
Proof.
  destruct p as [td run sh]. destruct m as [|i|i]; simpl.
  - destruct td as [|proj td]; [done |].
    destruct (has_slotb g (length run)) eqn:Hslot; [| done].
    intros [= <-]. apply step_Go. unfold has_slotb in Hslot. unfold errgroup.has_slot.
    destruct (errgroup.sem g) as [n|]; [lia | done].
  - destruct (run !! i) as [[|op ops]|] eqn:Hi; [done | | done].
    intros [= <-].
    rewrite insert_take_drop by (by eapply lookup_lt_Some).
    rewrite <- (take_drop_middle run i (op :: ops) Hi) at 1.
    apply step_op.
  - destruct (run !! i) as [[|op ops]|] eqn:Hi; [| done | done].
    intros [= <-].
    rewrite delete_take_drop.
    rewrite <- (take_drop_middle run i [] Hi) at 1.
    apply step_end.
Qed.

Lemma replay_rtc g task ms p p' : replay g task ms p = Some p' → rtc (step g task) p p'.
Proof.
  revert p; induction ms as [|m ms IH]; intros p; simpl.
  - by intros [= <-].
  - destruct (move g task m p) as [q|] eqn:Hm; [| done]. simpl.
    intros Hq. eapply rtc_l; [by apply move_step with m | by apply IH].
Qed.

(** The remote of the examples with the lost log found: the task of
    [ops] then sends five chunks, four for its first build and one for
    its second.  [earlier] is a chunk the channel carried before the
    call. *)
Module Mended.

Definition remote : http.Client := fun req =>
  if decide (http.URL req = "https://logs.example/lost") then Demo.ok (Demo.B "found")
  else Demo.remote req.

Definition src : Source :=
  (Init (Demo.rt remote) Demo.fresh "circleci" 1 2 true Demo.withToken 2).1.

Definition deployed : sources.Chunk :=
  Demo.chunk Demo.ops 1 "deploy" "https://app.circleci.com/pipelines/github/acme/ops/1"
             (Demo.B "deployed").

Definition found : sources.Chunk :=
  Demo.chunk Demo.ops 1 "deploy" "https://app.circleci.com/pipelines/github/acme/ops/1"
             (Demo.B "found").

Definition late : sources.Chunk :=
  Demo.chunk Demo.ops 1 "deploy" "https://app.circleci.com/pipelines/github/acme/ops/1"
             (Demo.B "late").

Definition notified : sources.Chunk :=
  Demo.chunk Demo.ops 1 "notify" "https://app.circleci.com/pipelines/github/acme/ops/1"
             (Demo.B "late").

Definition built : sources.Chunk :=
  Demo.chunk Demo.ops 2 "build" "https://app.circleci.com/pipelines/github/acme/ops/2"
             (Demo.B "done").

Definition earlier : sources.Chunk :=
  Demo.chunk Demo.api 41 "test" "https://app.circleci.com/pipelines/github/acme/api/41"
             (Demo.B "before").

(** A schedule of the five tasks under the limit of two: [api] and [web]
    one after the other; then [cli] and [ops] together, [ops] sending
    its first chunk before [cli] sends its own; then [doc] beside [ops],
    sending its chunk between the second and the third of [ops]. *)
Definition schedule : list Move :=
  [Start; Start]
  ++ replicate 5 (Act 0) ++ [Stop 0]
  ++ replicate 3 (Act 0) ++ [Stop 0]
  ++ [Start; Start]
  ++ replicate 4 (Act 1)
  ++ replicate 5 (Act 0) ++ [Stop 0]
  ++ [Start]
  ++ replicate 2 (Act 0)
  ++ replicate 4 (Act 1)
  ++ replicate 8 (Act 0)
  ++ replicate 3 (Act 1)
  ++ [Stop 1; Stop 0].

(** Where the schedule ends. *)
Definition waited : Pool :=
  {| todo := []; running := [];
     shared := {| chunksChan := [earlier; Demo.apiChunk; deployed; Demo.cliChunk; found;
                                 Demo.docChunk; late; notified; built];
                  scanErrs := {| count := 2; errors := [Demo.webError; Demo.docError] |};
                  scanned := 3 |} |}.

End Mended.

(** X9 on a run where it matters: the channel has carried [earlier]
    before the call, and the five chunks of [ops] are sent with the
    chunks of [cli] and [doc] in between.  When [Wait] returns the
    channel begins with [earlier], and the five chunks of [ops] are on
    it in the order the task sent them. *)
Lemma chunks_of_a_project_keep_their_order_witness :
  Chunks_reaches (Demo.rt Mended.remote) Mended.src [Mended.earlier]
                 [Demo.api; Demo.web; Demo.cli; Demo.ops; Demo.doc] Mended.waited
  ∧ drained Mended.waited
  ∧ sends (projectTask (Demo.rt Mended.remote) Mended.src Demo.ops).1
    = [Mended.deployed; Mended.found; Mended.late; Mended.notified; Mended.built]
  ∧ [Mended.deployed; Mended.found; Mended.late; Mended.notified; Mended.built]
      `sublist_of` [Mended.earlier; Demo.apiChunk; Mended.deployed; Demo.cliChunk;
                    Mended.found; Demo.docChunk; Mended.late; Mended.notified; Mended.built]
  ∧ [Mended.earlier]
      `prefix_of` [Mended.earlier; Demo.apiChunk; Mended.deployed; Demo.cliChunk;
                   Mended.found; Demo.docChunk; Mended.late; Mended.notified; Mended.built].
Proof.
  assert (Hreach : Chunks_reaches (Demo.rt Mended.remote) Mended.src [Mended.earlier]
                     [Demo.api; Demo.web; Demo.cli; Demo.ops; Demo.doc] Mended.waited).
  { apply (replay_rtc _ _ Mended.schedule). vm_compute. reflexivity. }
  assert (Hsends : sends (projectTask (Demo.rt Mended.remote) Mended.src Demo.ops).1
                   = [Mended.deployed; Mended.found; Mended.late; Mended.notified;
                      Mended.built])
    by (vm_compute; reflexivity).
  split_and!; [exact Hreach | done | exact Hsends | |].
  - rewrite <- Hsends.
    apply (proj1 (chunks_of_a_project_keep_their_order (Demo.rt Mended.remote) Mended.src)
             [Mended.earlier] [Demo.api; Demo.web; Demo.cli; Demo.ops; Demo.doc]
             Mended.waited Demo.ops Hreach); [done |].
    do 3 right. left.
  - apply (proj2 (chunks_of_a_project_keep_their_order (Demo.rt Mended.remote) Mended.src)
             [Mended.earlier] [Demo.api; Demo.web; Demo.cli; Demo.ops; Demo.doc]
             Mended.waited Hreach).
Defined.

Section PoolTotals.
Variable rt : Runtime.
Variable s : Source.

(** A task counts its project as scanned or records one error, never
    both and never neither. *)
Lemma projectTask_scanned_or_failed proj :
  (length (scans (projectTask rt s proj).1)
   + length (appends (projectTask rt s proj).1) = 1)%nat.
Proof.
  destruct (projectTask_shape rt s proj) as (ops & tail & -> & Hq & Htail).
  cbn [fst]. unfold scans, appends. rewrite !omap_app, !length_app.
  assert (Hops : omap (fun op => match op with ScannedAdd => Some tt | _ => None end) ops = []
                 ∧ omap (fun op => match op with ErrorsAppend err => Some err | _ => None end)
                        ops = []).
  { clear Htail. induction Hq as [|op ops Hop _ [IH1 IH2]]; [done |].
    destruct op; simpl in *; done. }
  destruct Hops as [-> ->]. by destruct Htail as [-> | [err ->]].
Qed.

Lemma length_concat_map_sum {A B C} (f : A → list B) (h : A → list C) (l : list A) :
  (∀ a, (length (f a) + length (h a) = 1)%nat) →
  (length (concat (map f l)) + length (concat (map h l)) = length l)%nat.
Proof.
  intros Hfh. induction l as [|a l IH]; [done |].
  simpl. rewrite !length_app. specialize (Hfh a). lia.
Qed.

Lemma Chunks_drained_scanned sent projs p :
  Chunks_reaches rt s sent projs p → drained p →
  scanned (shared p)
  = Z.of_nat (length (concat (map (fun proj => scans (projectTask rt s proj).1) projs)))
      mod 2 ^ 64.
Proof.
  intros Hreach [Htd Hrun].
  destruct (rtc_step_scans _ _ _ _ Hreach) as [Hc Heq]; [simpl; lia |].
  unfold pending in Heq. rewrite Htd, Hrun in Heq. simpl in Heq.
  rewrite Z.add_0_r, (Z.mod_small _ _ Hc) in Heq. rewrite Heq, Z.add_0_l.
  by rewrite omap_concat, map_map.
Qed.

End PoolTotals.

(** X10. Every listed project ends up counted once: when [Wait] returns,
    the projects counted as scanned and the errors the aggregator holds
    add up to the number of listed projects. *)
Theorem scanned_and_failed_add_up (rt : Runtime) (s : Source) :
  ∀ sent projs p,
    Chunks_reaches rt s sent projs p → drained p →
    Z.of_nat (length projs) < 2 ^ 64 →
    scanned (shared p) + Z.of_nat (length (errors (scanErrs (shared p))))
    = Z.of_nat (length projs).
Proof.
  intros sent projs p Hreach Hdr Hlen.
  rewrite (Chunks_drained_scanned rt s sent projs p Hreach Hdr).
  destruct (Chunks_drained_collects rt s sent projs p Hreach Hdr) as [_ Herr].
  rewrite Herr.
  pose proof (length_concat_map_sum
                (fun proj => scans (projectTask rt s proj).1)
                (fun proj => appends (projectTask rt s proj).1) projs
                (projectTask_scanned_or_failed rt s)) as Hsum.
  rewrite Z.mod_small; lia.
Qed.

(** X10 at the remote of the examples: two projects scanned and three
    errors for five projects. *)
Lemma scanned_and_failed_add_up_witness :
  ∃ p, drained p
       ∧ scanned (shared p) + Z.of_nat (length (errors (scanErrs (shared p)))) = 5.
Proof.
  destruct (drain_sequentially (jobPool Demo.src)
              (fun proj => (projectTask (Demo.rt Demo.remote) Demo.src proj).1)
              [Demo.api; Demo.web; Demo.cli; Demo.ops; Demo.doc]
              (shared (fanOut [] [Demo.api; Demo.web; Demo.cli; Demo.ops; Demo.doc])))
    as [sh' Hrun]; [vm_compute; reflexivity |].
  exists {| todo := []; running := []; shared := sh' |}. split; [done |].
  apply (scanned_and_failed_add_up (Demo.rt Demo.remote) Demo.src
           [] [Demo.api; Demo.web; Demo.cli; Demo.ops; Demo.doc]);
    [exact Hrun | done | vm_compute; reflexivity].
Defined.

(** ** The limit given to [Init] at its edges *)

Lemma Init_jobPool rt s0 name' jobId' sourceId' verify' connection k :
  jobPool (Init rt s0 name' jobId' sourceId' verify' connection k).1
  = errgroup.SetLimit errgroup.zero k.
Proof.
  unfold Init. destruct (anypb_UnmarshalTo rt connection) as [conn|err]; [| done].
  by destruct (sourcespb.Credential conn) as [[t|tag]|].
Qed.

(** X11. A limit of [0] stalls [Chunks]: after [Init] with concurrency
    [0], if the listing holds at least one project, no task is ever
    started, nothing reaches the channel or the aggregator, and [Chunks]
    does not return. *)
Theorem limit_zero_never_returns (rt : Runtime) (s0 : Source) (name' : string)
    (jobId' sourceId' : Z) (verify' : bool) (connection : anypb.Any)
    (sent : list sources.Chunk) (proj : project) (projs : list project) :
  (projects rt (Init rt s0 name' jobId' sourceId' verify' connection 0).1).2
  = Ok (proj :: projs) →
  (∀ p, Chunks_reaches rt (Init rt s0 name' jobId' sourceId' verify' connection 0).1
                       sent (proj :: projs) p →
        p = fanOut sent (proj :: projs))
  ∧ (∀ sent' r,
       ¬ Chunks rt (Init rt s0 name' jobId' sourceId' verify' connection 0).1
                sent sent' r).
Proof.
  intros Hprojs.
  set (s := (Init rt s0 name' jobId' sourceId' verify' connection 0).1) in *.
  assert (Hstuck : ∀ p, Chunks_reaches rt s sent (proj :: projs) p →
                        p = fanOut sent (proj :: projs)).
  { intros p Hreach. unfold Chunks_reaches in Hreach.
    apply rtc_inv in Hreach as [<- | (p' & Hstep & _)]; [done |].
    exfalso. inversion Hstep as [? ? run ? Hslot | ? run1 ? ? ? ? Hrun | ? run1 ? ? Hrun].
    - subst. unfold errgroup.has_slot in Hslot. subst s.
      rewrite Init_jobPool in Hslot. simpl in Hslot. lia.
    - by destruct run1.
    - by destruct run1. }
  split; [done |].
  intros sent' r Hrun. destruct Hrun as [err Herr | projs' p Hok Hreach [Htd _]].
  - congruence.
  - assert (projs' = proj :: projs) as -> by congruence.
    by rewrite (Hstuck p Hreach) in Htd.
Qed.

(** X11 at the remote of the examples with a limit of [0]. *)
Lemma limit_zero_never_returns_witness :
  (∀ p, Chunks_reaches (Demo.rt Demo.remote) Edge.stalled []
                       [Demo.api; Demo.web; Demo.cli; Demo.ops; Demo.doc] p →
        p = fanOut [] [Demo.api; Demo.web; Demo.cli; Demo.ops; Demo.doc])
  ∧ (∀ sent' r, ¬ Chunks (Demo.rt Demo.remote) Edge.stalled [] sent' r).
Proof.
  apply (limit_zero_never_returns (Demo.rt Demo.remote) Demo.fresh "circleci" 1 2 true
           Demo.withToken [] Demo.api [Demo.web; Demo.cli; Demo.ops; Demo.doc]).
  vm_compute. reflexivity.
Defined.

(** X12. A negative limit is no limit: after [Init] with a negative
    concurrency the tasks of all listed projects can be active at the
    same time, however many there are. *)
Theorem negative_limit_is_no_limit (rt : Runtime) (s0 : Source) (name' : string)
    (jobId' sourceId' : Z) (verify' : bool) (connection : anypb.Any) (k : Z)
    (sent : list sources.Chunk) (projs : list project) :
  k < 0 →
  Chunks_reaches rt (Init rt s0 name' jobId' sourceId' verify' connection k).1 sent projs
    {| todo := [];
       running :=
         map (fun proj =>
                (projectTask rt (Init rt s0 name' jobId' sourceId' verify' connection k).1
                             proj).1) projs;
       shared := shared (fanOut sent projs) |}.
Proof.
  intros Hk.
  set (s := (Init rt s0 name' jobId' sourceId' verify' connection k).1) in *.
  assert (Hsem : errgroup.sem (jobPool s) = None).
  { subst s. rewrite Init_jobPool. unfold errgroup.SetLimit.
    destruct (Z.ltb_spec k 0); [done | lia]. }
  assert (H : ∀ td run sh,
            rtc (step (jobPool s) (fun proj => (projectTask rt s proj).1))
                {| todo := td; running := run; shared := sh |}
                {| todo := [];
                   running := run ++ map (fun proj => (projectTask rt s proj).1) td;
                   shared := sh |}).
  { induction td as [|proj td IH]; intros run sh; simpl.
    - rewrite app_nil_r. apply rtc_refl.
    - eapply rtc_l.
      + apply step_Go. unfold errgroup.has_slot. by rewrite Hsem.
      + specialize (IH (run ++ [(projectTask rt s proj).1]) sh).
        by rewrite <- app_assoc in IH. }
  apply (H projs [] _).
Qed.

(** X12 at the remote of the examples with a limit of [-1]: five tasks
    active at once. *)
Lemma negative_limit_is_no_limit_witness :
  Chunks_reaches (Demo.rt Demo.remote) Edge.unbounded []
    [Demo.api; Demo.web; Demo.cli; Demo.ops; Demo.doc]
    {| todo := [];
       running :=
         map (fun proj => (projectTask (Demo.rt Demo.remote) Edge.unbounded proj).1)
             [Demo.api; Demo.web; Demo.cli; Demo.ops; Demo.doc];
       shared := shared (fanOut [] [Demo.api; Demo.web; Demo.cli; Demo.ops; Demo.doc]) |}.
Proof.
  apply (negative_limit_is_no_limit (Demo.rt Demo.remote) Demo.fresh "circleci" 1 2 true
           Demo.withToken (-1) [] [Demo.api; Demo.web; Demo.cli; Demo.ops; Demo.doc]).
  lia.
Defined.

(** ** An empty listing, and what [Init] hands on *)

(** X13. With no project listed [Chunks] returns [nil] at once and leaves
    the channel as it was, whatever the limit of the pool, a limit of [0]
    included. *)
Theorem empty_listing_returns_at_once (rt : Runtime) (s : Source)
    (sent : list sources.Chunk) :
  (projects rt s).2 = Ok [] →
  Chunks rt s sent sent None
  ∧ (∀ sent' r, Chunks rt s sent sent' r → sent' = sent ∧ r = None).
Proof.
  intros Hprojs. split.
  - apply (Chunks_waited rt s sent [] (fanOut sent []) Hprojs); [apply rtc_refl | done].
  - intros sent' r Hrun. destruct Hrun as [err Herr | projs p Hok Hreach Hdr].
    + congruence.
    + assert (projs = []) as -> by congruence.
      by rewrite (drained_stays rt s (fanOut sent []) p).
Qed.

(** X13 at a remote without projects, under a limit of [0]. *)
Lemma empty_listing_returns_at_once_witness :
  Chunks (Demo.rt Edge.deserted) Edge.idle [] [] None
  ∧ (∀ sent' r, Chunks (Demo.rt Edge.deserted) Edge.idle [] sent' r →
       sent' = [] ∧ r = None).
Proof.
  apply (empty_listing_returns_at_once (Demo.rt Edge.deserted) Edge.idle []).
  vm_compute. reflexivity.
Defined.

(** X14. What [Init] is given is what the source uses afterwards, whether
    or not the connection unmarshals: [SourceID] and [JobID] return the
    source and the job identifier (in that pairing, though [Init] takes
    the job identifier first), every chunk carries the name, the source
    identifier and the verify flag, and after a token credential every
    listing request carries that token. *)
Theorem Init_settings_are_used (rt : Runtime) (s0 : Source) (name' : string)
    (jobId' sourceId' : Z) (verify' : bool) (connection : anypb.Any) (k : Z) :
  SourceID (Init rt s0 name' jobId' sourceId' verify' connection k).1 = sourceId'
  ∧ JobID (Init rt s0 name' jobId' sourceId' verify' connection k).1 = jobId'
  ∧ (∀ proj bld act stepName chunk,
       ChanSend chunk
         ∈ (chunkAction rt (Init rt s0 name' jobId' sourceId' verify' connection k).1
                        proj bld act stepName).1 →
       sources.SourceName chunk = name'
       ∧ sources.SourceID chunk = sourceId'
       ∧ sources.Verify chunk = verify')
  ∧ (∀ conn t proj req,
       anypb_UnmarshalTo rt connection = Ok conn →
       sourcespb.Credential conn = Some (sourcespb.CircleCI_Token t) →
       HttpDo req
         ∈ (projects rt (Init rt s0 name' jobId' sourceId' verify' connection k).1).1
           ++ (buildsForProject rt (Init rt s0 name' jobId' sourceId' verify' connection k).1
                                proj).1 →
       http.Header req !! "Circle-Token" = Some [t]).
Proof.
  set (s := (Init rt s0 name' jobId' sourceId' verify' connection k).1).
  assert (Hfields : sourceId s = sourceId' ∧ jobId s = jobId' ∧ name s = name'
                    ∧ verify s = verify').
  { subst s. unfold Init.
    destruct (anypb_UnmarshalTo rt connection) as [conn|err]; [| done].
    by destruct (sourcespb.Credential conn) as [[t|tag]|]. }
  destruct Hfields as (Hsid & Hjid & Hname & Hverify).
  split_and!; [done | done | |].
  - intros proj bld act stepName chunk Hin.
    destruct (chunkAction_cases rt s proj bld act stepName)
      as [[err Heq] | [[err Heq] | (res & logOutput & _ & _ & Heq)]];
      rewrite Heq in Hin; cbn [fst] in Hin.
    + by apply elem_of_nil in Hin.
    + apply list_elem_of_singleton in Hin. discriminate Hin.
    + apply elem_of_cons in Hin as [Hin | Hin]; [discriminate Hin |].
      apply list_elem_of_singleton in Hin. injection Hin as ->. done.
  - intros conn t proj req Hconn Hcred Hin.
    assert (Htok : token s = t).
    { subst s. unfold Init. rewrite Hconn, Hcred. cbn.
      unfold sourcespb.GetToken. by rewrite Hcred. }
    assert (Hreq : ∃ url, req = listingRequest s url).
    { apply elem_of_app in Hin as [Hin | Hin].
      - destruct (projects_ops rt s) as [Heq | Heq]; rewrite Heq in Hin.
        + by apply elem_of_nil in Hin.
        + apply list_elem_of_singleton in Hin. injection Hin as ->. by eexists.
      - destruct (buildsForProject_ops rt s proj) as [Heq | Heq]; rewrite Heq in Hin.
        + by apply elem_of_nil in Hin.
        + apply list_elem_of_singleton in Hin. injection Hin as ->. by eexists. }
    destruct Hreq as [url ->]. unfold listingRequest, http.Header_Set. cbn.
    rewrite lookup_insert_ne by done. rewrite lookup_insert_eq. by rewrite Htok.
Qed.

(** X14 at the source of the examples: the chunk of project [api] has
    the name and the source identifier given to [Init], and the listing
    of its builds carries the token of the connection. *)
Lemma Init_settings_are_used_witness :
  (sources.SourceName Demo.apiChunk = "circleci"
   ∧ sources.SourceID Demo.apiChunk = 2
   ∧ sources.Verify Demo.apiChunk = true)
  ∧ http.Header (listingRequest Demo.src (buildsURL Demo.api)) !! "Circle-Token"
    = Some ["secret"].
Proof.
  destruct (Init_settings_are_used (Demo.rt Demo.remote) Demo.fresh "circleci" 1 2 true
              Demo.withToken 2) as (_ & _ & Hchunk & Htoken).
  split.
  - apply (Hchunk Demo.api {| BuildNum := 42 |} Demo.apiLog "test" Demo.apiChunk).
    vm_compute. right. left.
  - apply (Htoken {| sourcespb.Credential := Some (sourcespb.CircleCI_Token "secret") |}
             "secret" Demo.api (listingRequest Demo.src (buildsURL Demo.api)));
      [vm_compute; reflexivity | reflexivity |].
    vm_compute. right. left.
Defined.

(** ** The counter of the aggregator while the tasks run *)

(** By how much the appends a goroutine has still to perform exceed the
    increments it has still to perform. *)
Definition owed (ops : list Op) : Z :=
  Z.of_nat (length (appends ops)) - Z.of_nat (length (counts ops)).

Definition owed_all (run : list (list Op)) : Z := foldr (fun ops acc => owed ops + acc) 0 run.

(** What is left of a task at some point of its run: requests and sends
    and then the count of the scanned project, or the two steps of [add],
    or the second step of [add] alone, or nothing but requests and
    sends. *)
Inductive rest_of_task : list Op → Prop :=
| rest_scans q : Forall quiet q → rest_of_task (q ++ [ScannedAdd])
| rest_adds q err : Forall quiet q → rest_of_task (q ++ [CountAdd; ErrorsAppend err])
| rest_appends err : rest_of_task [ErrorsAppend err]
| rest_quiet q : Forall quiet q → rest_of_task q.

Section AggregatorLead.
Variable g : errgroup.Group.
Variable task : project → list Op.
Hypothesis task_shape :
  ∀ proj, ∃ q,
    Forall quiet q
    ∧ (task proj = q ++ [ScannedAdd] ∨ ∃ err, task proj = q ++ [CountAdd; ErrorsAppend err]).

Lemma owed_quiet q : Forall quiet q → owed q = 0.
Proof.
  intros Hq. unfold owed, appends, counts.
  induction Hq as [|op q Hop _ IH]; [done |]. destruct op; simpl in *; done.
Qed.

Lemma owed_app ops ops' : owed (ops ++ ops') = owed ops + owed ops'.
Proof. unfold owed, appends, counts. rewrite !omap_app, !length_app. lia. Qed.

Lemma owed_all_app run run' : owed_all (run ++ run') = owed_all run + owed_all run'.
Proof. induction run as [|r run IH]; simpl; [done | rewrite IH; lia]. Qed.

Lemma rest_of_task_owed r : rest_of_task r → 0 ≤ owed r ≤ 1.
Proof.
  intros [q Hq | q err Hq | err | q Hq]; rewrite ?owed_app, ?owed_quiet by done;
    unfold owed; cbn; lia.
Qed.

Lemma rest_of_task_step op ops : rest_of_task (op :: ops) → rest_of_task ops.
Proof.
  inversion 1 as [q Hq Heq | q err Hq Heq | err Heq | q Hq Heq].
  - destruct q as [|op' q]; simplify_eq/=.
    + by apply rest_quiet.
    + apply rest_scans. by inversion Hq.
  - destruct q as [|op' q]; simplify_eq/=.
    + apply rest_appends.
    + apply rest_adds. by inversion Hq.
  - simplify_eq. by apply rest_quiet.
  - subst. apply rest_quiet. by inversion Hq.
Qed.

Lemma task_rest proj : rest_of_task (task proj) ∧ owed (task proj) = 0.
Proof.
  destruct (task_shape proj) as (q & Hq & [-> | [err ->]]).
  - split; [by apply rest_scans |]. rewrite owed_app, owed_quiet by done. done.
  - split; [by apply rest_adds |]. rewrite owed_app, owed_quiet by done. done.
Qed.

(** Both invariants of the pool's aggregator: every active goroutine has
    the rest of a task before it, and the counter is the length of the
    slice plus what the active goroutines owe, modulo [2^64]. *)
Definition lead_inv (p : Pool) : Prop :=
  Forall rest_of_task (running p)
  ∧ count (scanErrs (shared p))
    = (Z.of_nat (length (errors (scanErrs (shared p)))) + owed_all (running p))
        mod 2 ^ 64.

Lemma step_lead p p' : step g task p p' → lead_inv p → lead_inv p'.
Proof.
  intros Hstep Hinv. unfold lead_inv in *.
  destruct Hstep as [proj td run sh Hslot | td run1 op ops run2 sh | td run1 run2 sh];
    cbn [running shared] in *; destruct Hinv as [Hrest Hcount].
  - destruct (task_rest proj) as [Hr Ho]. split.
    + apply Forall_app. split; [done | by constructor].
    + rewrite owed_all_app. cbn [owed_all foldr]. rewrite Ho, Hcount. f_equal. lia.
  - apply Forall_app in Hrest as [Hr1 Hr2].
    apply Forall_cons in Hr2 as [Hr Hr2']. split.
    + apply Forall_app. split; [done |]. constructor; [| done].
      by apply (rest_of_task_step op).
    + rewrite owed_all_app in Hcount |- *. cbn [owed_all foldr] in Hcount |- *.
      change (op :: ops) with ([op] ++ ops) in Hcount. rewrite owed_app in Hcount.
      destruct op; cbn [exec scanErrs count errors add_count add_append];
        rewrite ?length_app; cbn [length];
        unfold atomic_AddUint64; rewrite Hcount, ?Z.add_mod_idemp_l by lia;
        f_equal; unfold owed; cbn; lia.
  - apply Forall_app in Hrest as [Hr1 Hr2].
    apply Forall_cons in Hr2 as [Hr Hr2']. split.
    + apply Forall_app. by split.
    + rewrite owed_all_app in Hcount |- *. cbn [owed_all foldr] in Hcount.
      rewrite Hcount. f_equal; unfold owed; cbn; lia.
Qed.

Lemma rtc_step_lead p p' : rtc (step g task) p p' → lead_inv p → lead_inv p'.
Proof.
  induction 1 as [|p p' p'' Hstep _ IH]; [done |].
  intros Hinv. by apply IH, (step_lead p).
Qed.

Lemma owed_all_bounds run : Forall rest_of_task run → 0 ≤ owed_all run ≤ Z.of_nat (length run).
Proof.
  induction 1 as [|r run Hr _ IH]; cbn [owed_all foldr length]; [lia |].
  pose proof (rest_of_task_owed r Hr).
  change (foldr (fun ops acc => owed ops + acc) 0 run) with (owed_all run). lia.
Qed.

End AggregatorLead.

(** X15. While the tasks run, the counter of the aggregator never lags
    behind its slice and never leads it by more than the number of active
    tasks: in every state a run of [Chunks] reaches, the counter is at
    least the number of errors the slice holds and at most that number
    plus the number of active tasks ([add] increments the counter before
    it appends). *)
Theorem scanErrors_count_leads_slice (rt : Runtime) (s : Source) :
  ∀ sent projs p,
    Chunks_reaches rt s sent projs p →
    Z.of_nat (length (errors (scanErrs (shared p)))) + Z.of_nat (length (running p)) < 2 ^ 64 →
    Z.of_nat (length (errors (scanErrs (shared p)))) ≤ count (scanErrs (shared p))
    ∧ count (scanErrs (shared p))
      ≤ Z.of_nat (length (errors (scanErrs (shared p)))) + Z.of_nat (length (running p)).
Proof.
  intros sent projs p Hreach Hsmall.
  assert (Hshape : ∀ proj, ∃ q,
            Forall quiet q
            ∧ ((projectTask rt s proj).1 = q ++ [ScannedAdd]
               ∨ ∃ err, (projectTask rt s proj).1 = q ++ [CountAdd; ErrorsAppend err])).
  { intros proj. destruct (projectTask_shape rt s proj) as (ops & tail & -> & Hq & Htail).
    exists ops. split; [done |]. destruct Htail as [-> | [err ->]]; [by left | right].
    by exists err. }
  destruct (rtc_step_lead (jobPool s) _ Hshape _ _ Hreach) as [Hrest Hcount].
  { split; [constructor | done]. }
  pose proof (owed_all_bounds _ Hrest) as Hb.
  rewrite Hcount, Z.mod_small by lia. lia.
Qed.

(** X15 at the remote of the examples, in the state where the task of
    [web] has incremented the counter and not yet appended its error. *)
Lemma scanErrors_count_leads_slice_witness :
  ∃ p, length (errors (scanErrs (shared p))) = 0%nat
       ∧ count (scanErrs (shared p)) = 1
       ∧ Z.of_nat (length (errors (scanErrs (shared p)))) ≤ count (scanErrs (shared p))
       ∧ count (scanErrs (shared p))
         ≤ Z.of_nat (length (errors (scanErrs (shared p)))) + Z.of_nat (length (running p)).
Proof.
  exists {| todo := [Demo.cli; Demo.ops; Demo.doc];
            running := [(projectTask (Demo.rt Demo.remote) Demo.src Demo.api).1;
                        [ErrorsAppend Demo.webError]];
            shared := {| chunksChan := [];
                         scanErrs := {| count := 1; errors := [] |};
                         scanned := 0 |} |}.
  split; [reflexivity |]. split; [reflexivity |].
  apply (scanErrors_count_leads_slice (Demo.rt Demo.remote) Demo.src []
           [Demo.api; Demo.web; Demo.cli; Demo.ops; Demo.doc]).
  - unfold Chunks_reaches.
    eapply rtc_l.
    { apply (step_Go _ _ Demo.api [Demo.web; Demo.cli; Demo.ops; Demo.doc] []).
      vm_compute. reflexivity. }
    eapply rtc_l.
    { apply (step_Go _ _ Demo.web [Demo.cli; Demo.ops; Demo.doc]). vm_compute. reflexivity. }
    cbv beta. rewrite demo_task_web. cbn [fst app].
    eapply rtc_l.
    { apply (step_op _ _ _ [_] (HttpDo _) _ []). }
    eapply rtc_l.
    { apply (step_op _ _ _ [_] CountAdd _ []). }
    apply rtc_refl.
  - vm_compute. reflexivity.
Defined.
